(** * Depth-time interpolation engine of the water-column application

    A shallow embedding of [SensorDataProcessor.perform_interpolation]
    (src/src/WC_Vars_PSIV.py, lines 804-966) and of the pandas / numpy
    operations it calls, followed by the properties of the engine.

    Numbers.  The program computes on IEEE doubles.  The engine is
    embedded on exact rationals ([Q]), the missing marker NaN being
    [None]: a cell of a grid is an [option Q], and a statement about the
    cells it computes is a statement of exact arithmetic.  Rounding,
    overflow and infinities are outside this reading.  Where they decide
    a property (the length of the depth axis, the blend of two readings)
    the computation is given a second time on binary64 numbers ([float]),
    in section Binary64; properties of a run hold for whatever depth axis
    [np.arange] returns.

    Containers.  A Python dict is an association list in insertion order
    (the program relies on that order for "the first sensor"); the keys of
    a dict are pairwise distinct, which is a hypothesis wherever it
    matters.  A numpy array is a list, a 2-D array a list of rows. *)

From Stdlib Require Import QArith Qround Qpower Lqa ZArith Lia.
From Stdlib Require Import Sorted Permutation.
From Stdlib Require Import Floats.
From stdpp Require Import base list strings pretty.

Local Open Scope Q_scope.
Local Open Scope nat_scope.
Local Open Scope list_scope.

Set Warnings "-inexact-float".

(** ** Numbers and cells *)

Abbreviation cell := (option Q).

Definition isnan (c : cell) : bool :=
  match c with None => true | Some _ => false end.

Definition Qltb (x y : Q) : bool := negb (Qle_bool y x).

#[global] Instance Q_inhabited : Inhabited Q := populate 0%Q.

(** ** pandas: Index and DataFrame *)

Abbreviation timestamp := Z.
Abbreviation Index := (list Z).

Record DataFrame := mkDataFrame {
  index : Index;
  columns : list (string * list cell)
}.

(** [a.equals(b)]: same labels in the same order. *)
Definition Index_equals (a b : Index) : bool := bool_decide (a = b).

(** [t in idx] *)
Definition Index_contains (idx : Index) (t : timestamp) : bool :=
  bool_decide (t ∈ idx).

(** [idx.unique()]: first occurrences, in order. *)
Fixpoint Index_unique_from (seen : list timestamp) (idx : Index) : Index :=
  match idx with
  | [] => []
  | t :: idx' =>
      if bool_decide (t ∈ seen) then Index_unique_from seen idx'
      else t :: Index_unique_from (t :: seen) idx'
  end.

Definition Index_unique (idx : Index) : Index := Index_unique_from [] idx.

(** [a.intersection(b)] (sort=False): the distinct labels of [a] that
    occur in [b], in the order of [a]. *)
Definition Index_intersection (a b : Index) : Index :=
  List.filter (Index_contains b) (Index_unique a).

(** [idx.is_unique] *)
Definition Index_is_unique (idx : Index) : bool := bool_decide (NoDup idx).

(** [var in df.columns] *)
Definition has_column (var : string) (df : DataFrame) : bool :=
  bool_decide (var ∈ (columns df).*1).

(** [df[var].values] *)
Fixpoint get_column (var : string) (cols : list (string * list cell)) : list cell :=
  match cols with
  | [] => []
  | (name, vals) :: cols' =>
      if String.eqb name var then vals else get_column var cols'
  end.

(** Rows of a column carrying label [t]. *)
Fixpoint rows_at (t : timestamp) (idx : Index) (vals : list cell) : list cell :=
  match idx, vals with
  | t' :: idx', v :: vals' =>
      if Z.eqb t' t then v :: rows_at t idx' vals' else rows_at t idx' vals'
  | _, _ => []
  end.

(** [df.loc[labels, var].values]: for every label in turn, all the rows
    that carry it.  Only called when every label is in the index. *)
Definition loc_values (df : DataFrame) (labels : Index) (var : string) : list cell :=
  flat_map (fun t => rows_at t (index df) (get_column var (columns df))) labels.

(** Exceptions the engine can meet. *)
Inductive exn :=
| ZeroDivisionError      (* np.arange with a zero step *)
| UnboundLocalError      (* a local variable read before assignment *)
| ValueError.            (* reindex on an axis with duplicate labels *)

Inductive result (A : Type) :=
| Ok (a : A)
| Raise (e : exn).
Arguments Ok {A} a.
Arguments Raise {A} e.

(** [df.reindex(labels)[var].values]: the row of each label, NaN where the
    frame has no such label; pandas refuses a frame whose own index has
    duplicate labels. *)
Definition reindex_values (df : DataFrame) (labels : Index) (var : string)
  : result (list cell) :=
  if Index_is_unique (index df) then
    Ok (fmap (fun t =>
                    match rows_at t (index df) (get_column var (columns df)) with
                    | v :: _ => v
                    | [] => None
                    end) labels)
  else Raise ValueError.

(** ** numpy *)

(** [np.arange(start, stop, step)] in exact arithmetic:
    [ceil((stop - start) / step)] points [start + i * step]; a zero step
    raises.  [arange_binary64] is the same on doubles, where rounding can
    change the length and numpy raises when it is not an array index. *)
Definition arange (start stop step : Q) : result (list Q) :=
  if Qeq_bool step 0 then Raise ZeroDivisionError
  else
    let len := Z.to_nat (Qceiling ((stop - start) / step)) in
    Ok (fmap (fun i => (start + inject_Z (Z.of_nat i) * step)%Q) (seq 0 len)).

(** Insertion of an index into a list of indices ordered by key. *)
Fixpoint insert_by_key (key : nat -> Q) (i : nat) (l : list nat) : list nat :=
  match l with
  | [] => [i]
  | j :: l' =>
      if Qle_bool (key i) (key j) then i :: j :: l'
      else j :: insert_by_key key i l'
  end.

(** [np.argsort(a)]: the indices of [a] in ascending order of value. *)
Definition argsort (a : list Q) : list nat :=
  foldr (insert_by_key (fun i => a !!! i)) [] (seq 0 (length a)).

(** [a[indices]] *)
Definition take_indices (a : list Q) (indices : list nat) : list Q :=
  fmap (fun i => a !!! i) indices.

(** [np.searchsorted(a, v)] (side='left') on an ascending array: the
    first position whose element is not below [v]. *)
Fixpoint searchsorted (a : list Q) (v : Q) : nat :=
  match a with
  | [] => 0
  | x :: a' => if Qltb x v then S (searchsorted a' v) else 0
  end.

(** [a[-1]] *)
Definition last_elem (a : list Q) : Q := List.last a 0%Q.

(** 2-D arrays, indexed [d_idx, t_idx]. *)
Abbreviation array2 := (list (list (option Q))).

(** [np.empty((n, m))] followed by [fill(np.nan)] *)
Definition full_nan (n m : nat) : array2 := replicate n (replicate m None).

(** [a[d, t]] *)
Definition get (a : array2) (d t : nat) : cell :=
  match a !! d with
  | Some row => match row !! t with Some c => c | None => None end
  | None => None
  end.

(** [a[d, t] = x] *)
Definition set_cell (a : array2) (d t : nat) (x : cell) : array2 :=
  alter (fun row => <[t := x]> row) d a.

(** [a[:, t]] *)
Definition column (a : array2) (t : nat) : list cell :=
  fmap (fun row => match row !! t with Some c => c | None => None end) a.

(** [a[lo:hi, t] = x] *)
Definition set_column_range (a : array2) (lo hi t : nat) (x : cell) : array2 :=
  imap (fun d row => if (lo <=? d) && (d <? hi) then <[t := x]> row else row) a.

(** [a[:, t] = x] *)
Definition set_column (a : array2) (t : nat) (x : cell) : array2 :=
  fmap (fun row => <[t := x]> row) a.

(** [np.where(~np.isnan(col))[0]] *)
Definition where_valid (col : list cell) : list nat :=
  List.filter (fun i => negb (isnan (match col !! i with Some c => c | None => None end)))
              (seq 0 (length col)).

(** ** The per-variable computation (lines 861-863 and 882-942) *)

(** Lines 885-890: the valid readings at time index [t_idx], in the
    iteration order of [var_data]; [depths] and [values] are its two
    projections. *)
Definition readings (var_data : list (Q * list cell)) (t_idx : nat) : list (Q * Q) :=
  omap (fun '(depth, data) =>
          match data !! t_idx with
          | Some (Some v) => Some (depth, v)
          | _ => None
          end) var_data.

(** Lines 914-923. *)
Definition blend (depth d_below d_above v_below v_above : Q) : Q :=
  let weight_above := ((depth - d_below) / (d_above - d_below))%Q in
  let weight_below := (1 - weight_above)%Q in
  (weight_below * v_below + weight_above * v_above)%Q.

(** Lines 900-923: the value written at [depth], if any. *)
Definition interpolate_at (depths_sorted values_sorted : list Q) (depth : Q) : option Q :=
  if Qle_bool (depths_sorted !!! 0) depth && Qle_bool depth (last_elem depths_sorted) then
    let idx_above := searchsorted depths_sorted depth in
    if idx_above =? 0 then Some (values_sorted !!! 0)
    else if idx_above =? length depths_sorted then Some (last_elem values_sorted)
    else if Qeq_bool depth (depths_sorted !!! idx_above) then
      Some (values_sorted !!! idx_above)
    else
      let idx_below := idx_above - 1 in
      let d_above := depths_sorted !!! idx_above in
      let d_below := depths_sorted !!! idx_below in
      let v_above := values_sorted !!! idx_above in
      let v_below := values_sorted !!! idx_below in
      Some (blend depth d_below d_above v_below v_above)
  else None.

(** Lines 898-923: the loop over [enumerate(depth_points)]. *)
Definition interpolate_column (var_array : array2) (t_idx : nat)
    (depths_sorted values_sorted depth_points : list Q) : array2 :=
  foldl (fun a '(d_idx, depth) =>
           match interpolate_at depths_sorted values_sorted depth with
           | Some x => set_cell a d_idx t_idx (Some x)
           | None => a
           end)
        var_array (imap pair depth_points).

(** Lines 884-926: one turn of the loop over time indices.  Returns the
    array and the local list [depths] the turn leaves behind. *)
Definition time_step (var_data : list (Q * list cell)) (depth_points : list Q)
    (var_array : array2) (t_idx : nat) : array2 * list Q :=
  let depths := (readings var_data t_idx).*1 in
  let values := (readings var_data t_idx).*2 in
  if 2 <=? length depths then
    let depth_sorted_indices := argsort depths in
    let depths_sorted := take_indices depths depth_sorted_indices in
    let values_sorted := take_indices values depth_sorted_indices in
    (interpolate_column var_array t_idx depths_sorted values_sorted depth_points, depths)
  else if length depths =? 1 then
    (set_column var_array t_idx (Some (values !!! 0)), depths)
  else (var_array, depths).

(** Lines 932-942: the fill of one time column. *)
Definition fill_column (var_array : array2) (t_idx : nat) : array2 :=
  let valid_depth_indices := where_valid (column var_array t_idx) in
  if 0 <? length valid_depth_indices then
    let min_valid_idx := valid_depth_indices !!! 0 in
    let top_value := get var_array min_valid_idx t_idx in
    let var_array := set_column_range var_array 0 min_valid_idx t_idx top_value in
    let max_valid_idx := List.last valid_depth_indices 0 in
    let bottom_value := get var_array max_valid_idx t_idx in
    set_column_range var_array (max_valid_idx + 1) (length var_array) t_idx bottom_value
  else var_array.

(** Lines 883-926: the loop over time indices.  [depths] is the function's
    local variable of that name: [None] while it has never been assigned. *)
Definition time_loop (var_data : list (Q * list cell)) (depth_points : list Q)
    (n_times : nat) (var_array : array2) (depths : option (list Q))
  : array2 * option (list Q) :=
  foldl (fun '(a, _) t_idx =>
           let '(a', depths) := time_step var_data depth_points a t_idx in
           (a', Some depths))
        (var_array, depths) (seq 0 n_times).

(** Lines 861-863 and 882-942.  The test [fill_values and depths] reads
    the local [depths] as the time loop left it. *)
Definition interpolate_variable (var_data : list (Q * list cell))
    (depth_points : list Q) (n_times : nat) (fill_values : bool)
    (depths : option (list Q)) : result (array2 * option (list Q)) :=
  let var_array := full_nan (length depth_points) n_times in
  let '(var_array, depths) := time_loop var_data depth_points n_times var_array depths in
  if fill_values then
    match depths with
    | None => Raise UnboundLocalError
    | Some [] => Ok (var_array, depths)
    | Some (_ :: _) => Ok (foldl fill_column var_array (seq 0 n_times), depths)
    end
  else Ok (var_array, depths).

(** ** Time-axis reconciliation and alignment *)

(** Lines 870-875: the series of one sensor on the common time index. *)
Definition align (df : DataFrame) (time_index : Index) (var : string)
  : result (list cell) :=
  if forallb (Index_contains (index df)) time_index then
    Ok (loc_values df time_index var)
  else reindex_values df time_index var.

(** [d[key] = value] on a dict keyed by depth. *)
Fixpoint dict_set_depth {V : Type} (d : list (Q * V)) (key : Q) (value : V) : list (Q * V) :=
  match d with
  | [] => [(key, value)]
  | (k, v) :: d' =>
      if Qeq_bool k key then (k, value) :: d'
      else (k, v) :: dict_set_depth d' key value
  end.

(** [d[key] = value] on a dict keyed by name. *)
Fixpoint dict_set {V : Type} (d : list (string * V)) (key : string) (value : V)
  : list (string * V) :=
  match d with
  | [] => [(key, value)]
  | (k, v) :: d' =>
      if String.eqb k key then (k, value) :: d'
      else (k, v) :: dict_set d' key value
  end.

(** Lines 866-875: the loop that fills [var_data]. *)
Fixpoint extract_var_data (var : string) (time_index : Index)
    (items : list (Q * DataFrame)) (var_data : list (Q * list cell))
  : result (list (Q * list cell)) :=
  match items with
  | [] => Ok var_data
  | (depth, df) :: items' =>
      if has_column var df then
        match align df time_index var with
        | Ok values => extract_var_data var time_index items'
                         (dict_set_depth var_data depth values)
        | Raise e => Raise e
        end
      else extract_var_data var time_index items' var_data
  end.

(** Dialogs shown to the user.  An error dialog that reports an exception
    carries it: its text ends with the message of the exception. *)
Inductive message :=
| showwarning (title text : string)
| showerror (title text : string) (e : option exn).

(** Lines 835-848, for a non-empty list of indices: the common time index
    and the dialogs shown on the way. *)
Definition common_time_index (first : Index) (rest : list Index)
  : Index * list message :=
  if forallb (fun idx => Index_equals idx first) (first :: rest) then (first, [])
  else
    let time_index := foldl Index_intersection first rest in
    if length time_index =? 0 then
      (first,
       [showwarning "No Common Times"
          "No common time points found across sensors. Using first sensor's time index."])
    else (time_index, []).

(** ** The application object *)

Record InterpolatedGrid := mkGrid {
  data : array2;
  depths : list Q;
  times : Index
}.

Record SensorDataProcessor := mkProcessor {
  depth_arrays : list (Q * DataFrame);
  depth_resolution : Q;
  max_depth : Q;
  fill_values : bool;
  interp_var_checkboxes : list (string * bool);
  interpolated_arrays : list (string * InterpolatedGrid);
  viz_var_combo : list string;
  viz_variable : string;
  plot_title : string;
  status_var : string;
  notebook : nat;
  messagebox : list message
}.

Definition set_interpolated_arrays (v : list (string * InterpolatedGrid))
    (self : SensorDataProcessor) : SensorDataProcessor :=
  mkProcessor (depth_arrays self) (depth_resolution self) (max_depth self)
    (fill_values self) (interp_var_checkboxes self) v
    (viz_var_combo self) (viz_variable self) (plot_title self)
    (status_var self) (notebook self) (messagebox self).

Definition show (m : list message) (self : SensorDataProcessor) : SensorDataProcessor :=
  mkProcessor (depth_arrays self) (depth_resolution self) (max_depth self)
    (fill_values self) (interp_var_checkboxes self) (interpolated_arrays self)
    (viz_var_combo self) (viz_variable self) (plot_title self)
    (status_var self) (notebook self) (messagebox self ++ m).

Definition set_viz (combo : list string) (variable title : string)
    (self : SensorDataProcessor) : SensorDataProcessor :=
  mkProcessor (depth_arrays self) (depth_resolution self) (max_depth self)
    (fill_values self) (interp_var_checkboxes self) (interpolated_arrays self)
    combo variable title
    (status_var self) (notebook self) (messagebox self).

Definition set_status (status : string) (tab : nat)
    (self : SensorDataProcessor) : SensorDataProcessor :=
  mkProcessor (depth_arrays self) (depth_resolution self) (max_depth self)
    (fill_values self) (interp_var_checkboxes self) (interpolated_arrays self)
    (viz_var_combo self) (viz_variable self) (plot_title self)
    status tab (messagebox self).

(** Lines 968-980. *)
Definition update_visualization_variables (self : SensorDataProcessor)
  : SensorDataProcessor :=
  match (interpolated_arrays self).*1 with
  | [] => self
  | v :: variables =>
      set_viz (v :: variables) v (v ++ " Contour Plot")%string self
  end.

(** Lines 860-948: the loop over the selected variables.  The local
    [depths] survives from one variable to the next. *)
Fixpoint interpolate_variables (variables : list string) (time_index : Index)
    (depth_points : list Q) (depths : option (list Q))
    (self : SensorDataProcessor) : SensorDataProcessor * result unit :=
  match variables with
  | [] => (self, Ok tt)
  | var :: variables' =>
      match extract_var_data var time_index (depth_arrays self) [] with
      | Raise e => (self, Raise e)
      | Ok [] =>
          interpolate_variables variables' time_index depth_points depths
            (show [showwarning "Missing Variable"
                     ("Variable '" ++ var ++ "' not found in any sensor data. Skipping.")%string]
                  self)
      | Ok var_data =>
          match interpolate_variable var_data depth_points (length time_index)
                  (fill_values self) depths with
          | Raise e => (self, Raise e)
          | Ok (var_array, depths') =>
              interpolate_variables variables' time_index depth_points depths'
                (set_interpolated_arrays
                   (dict_set (interpolated_arrays self) var
                             (mkGrid var_array depth_points time_index))
                   self)
          end
      end
  end.

(** Lines 817-820: the variables whose checkbox is ticked. *)
Definition variables_to_interpolate (self : SensorDataProcessor) : list string :=
  (List.filter (fun '(_, checked) => checked) (interp_var_checkboxes self)).*1.

(** Lines 811-962: the body of the [try] block. *)
Definition interpolation_body (self : SensorDataProcessor)
  : SensorDataProcessor * result unit :=
  let depth_res := depth_resolution self in
  let max_depth := max_depth self in
  let variables_to_interpolate := variables_to_interpolate self in
  match variables_to_interpolate with
  | [] => (show [showwarning "No Variables"
                   "Please select at least one variable to interpolate."] self,
           Ok tt)
  | _ :: _ =>
      let self := set_interpolated_arrays [] self in
      match fmap (fun '(_, df) => index df) (depth_arrays self) with
      | [] => (show [showerror "No Time Index"
                       "Could not extract time index from data." None] self,
               Ok tt)
      | first :: rest =>
          let '(time_index, warnings) := common_time_index first rest in
          let self := show warnings self in
          match arange 0 (max_depth + depth_res) depth_res with
          | Raise e => (self, Raise e)
          | Ok depth_points =>
              match interpolate_variables variables_to_interpolate time_index
                      depth_points None self with
              | (self, Raise e) => (self, Raise e)
              | (self, Ok _) =>
                  let self := update_visualization_variables self in
                  (set_status
                     ("Interpolated " ++ pretty (length variables_to_interpolate)
                        ++ " variables")%string 3 self,
                   Ok tt)
              end
          end
      end
  end.

(** Lines 804-966. *)
Definition perform_interpolation (self : SensorDataProcessor) : SensorDataProcessor :=
  match depth_arrays self with
  | [] => show [showwarning "No Data" "Please process data first."] self
  | _ :: _ =>
      match interpolation_body self with
      | (self, Ok _) => self
      | (self, Raise e) =>
          show [showerror "Interpolation Error" "Error during interpolation: "
                  (Some e)] self
      end
  end.

(** * Other operations of the application *)

(** ** Editing the sensor depths (lines 760-802)

    The data side of [edit_sensor_depths] and of its [save_depths]
    callback; the windows and the "Success" dialog are not modelled.  A
    [DoubleVar] is the number it holds. *)

(** [d[key]]; [None] stands for KeyError. *)
Fixpoint dict_get_depth {V : Type} (d : list (Q * V)) (key : Q) : option V :=
  match d with
  | [] => None
  | (k, v) :: d' => if Qeq_bool k key then Some v else dict_get_depth d' key
  end.

(** [sorted(d.items())] for a dict keyed by depth: the items in ascending
    order of key (the keys of a dict differ, so the values are never
    compared). *)
Definition sorted_items {V : Type} (d : list (Q * V)) : list (Q * V) :=
  omap (fun i => d !! i) (argsort d.*1).

(** Lines 776-786: [depth_entries], one entry per sensor in ascending order
    of depth, from the depth of the sensor to the number in its entry
    field, which starts as that depth. *)
Definition depth_entries (depth_arrays : list (Q * DataFrame)) : list (Q * Q) :=
  foldl (fun entries '(depth, _) => dict_set_depth entries depth depth) []
        (sorted_items depth_arrays).

(** Lines 793-796: the loop of [save_depths] over the entries as the user
    left them. *)
Fixpoint save_depths_loop (entries : list (Q * Q)) (depth_arrays : list (Q * DataFrame))
    (new_depth_arrays : list (Q * DataFrame)) : option (list (Q * DataFrame)) :=
  match entries with
  | [] => Some new_depth_arrays
  | (old_depth, new_depth) :: entries' =>
      match dict_get_depth depth_arrays old_depth with
      | Some df => save_depths_loop entries' depth_arrays
                     (dict_set_depth new_depth_arrays new_depth df)
      | None => None
      end
  end.

(** Lines 792-798: the registry [save_depths] assigns to
    [self.depth_arrays]; [None] when a lookup raises KeyError, in which
    case the registry is not assigned. *)
Definition save_depths (entries : list (Q * Q)) (depth_arrays : list (Q * DataFrame))
  : option (list (Q * DataFrame)) :=
  save_depths_loop entries depth_arrays [].

(** ** Finding the header line (lines 455-456 and 484-495) *)

(** The character [','] (code 44). *)
Definition comma : Ascii.ascii := Ascii.ascii_of_nat 44.

(** [',' in line] *)
Fixpoint has_comma (line : string) : bool :=
  match line with
  | EmptyString => false
  | String c line' => Ascii.eqb c comma || has_comma line'
  end.

(** The first index of a line with a comma: the generator
    [(i for i, line in enumerate(lines) if ',' in line)] at its first
    element, [None] when it is exhausted. *)
Fixpoint first_comma_line (lines : list string) : option nat :=
  match lines with
  | [] => None
  | line :: lines' =>
      if has_comma line then Some 0 else S <$> first_comma_line lines'
  end.

(** Lines 485-490 of [load_files]: [next(..., 0)] in "auto" mode, the
    number in the skip-lines field otherwise. *)
Definition load_header_line (header_detection : string) (lines : list string)
    (skip_lines : Z) : Z :=
  if String.eqb header_detection "auto" then
    match first_comma_line lines with
    | Some i => Z.of_nat i
    | None => 0%Z
    end
  else skip_lines.

(** Lines 435 and 456 of [preview_files]: [next(..., -1)] over the first
    twenty lines. *)
Definition preview_header_line (lines : list string) : Z :=
  match first_comma_line (take 20 lines) with
  | Some i => Z.of_nat i
  | None => (-1)%Z
  end.

(** The [skiprows] argument of [pd.read_csv]: a number of lines to skip at
    the start of the file, or a list of line numbers to skip. *)
Inductive skiprows :=
| skip_first (n : Z)
| skip_list (l : list Z).

(** Lines 493-495. *)
Definition load_skiprows (header_line : Z) (skip_units : bool) : skiprows :=
  if skip_units then skip_list [(header_line + 1)%Z] else skip_first header_line.

(** Whether [pd.read_csv] skips the line of a 0-based number. *)
Definition skips (s : skiprows) (i : Z) : bool :=
  match s with
  | skip_first n => (i <? n)%Z
  | skip_list l => bool_decide (i ∈ l)
  end.

(** ** Choosing the variables to process (lines 554-590) *)

(** [[listbox.get(i) for i in listbox.curselection()]] *)
Definition listbox_selection (items : list string) (curselection : list nat)
  : list string :=
  omap (fun i => items !! i) curselection.

(** Lines 556-559: the selected-variables listbox after [add_variables]. *)
Definition add_variables (available_vars : list string) (curselection : list nat)
    (selected_vars : list string) : list string :=
  foldl (fun items var => if bool_decide (var ∈ items) then items else items ++ [var])
        selected_vars (listbox_selection available_vars curselection).

(** [items.index(var)] followed by [delete(index)]: the list without the
    first occurrence of [var]; [None] stands for the ValueError of
    [index]. *)
Fixpoint delete_first (var : string) (items : list string) : option (list string) :=
  match items with
  | [] => None
  | x :: items' =>
      if String.eqb x var then Some items'
      else cons x <$> delete_first var items'
  end.

(** Lines 566-570: the selected-variables listbox after
    [remove_variables]. *)
Definition remove_variables (curselection : list nat) (selected_vars : list string)
  : option (list string) :=
  foldl (fun items var => items ≫= delete_first var) (Some selected_vars)
        (listbox_selection selected_vars curselection).

(** ** The checkboxes of the interpolation tab (lines 687-704) *)

Definition set_interp_var_checkboxes (v : list (string * bool))
    (self : SensorDataProcessor) : SensorDataProcessor :=
  mkProcessor (depth_arrays self) (depth_resolution self) (max_depth self)
    (fill_values self) v (interpolated_arrays self)
    (viz_var_combo self) (viz_variable self) (plot_title self)
    (status_var self) (notebook self) (messagebox self).

(** Lines 694-698: one ticked checkbox per column name. *)
Definition update_interpolation_variables (columns : list string)
    (self : SensorDataProcessor) : SensorDataProcessor :=
  set_interp_var_checkboxes
    (foldl (fun boxes var_name => dict_set boxes var_name true) [] columns) self.

(** ** The checks of [generate_plot] (lines 984-991) *)

(** The warning [generate_plot] shows before it returns without a plot;
    [None] when it goes on to plot. *)
Definition generate_plot_refusal (self : SensorDataProcessor) : option message :=
  match interpolated_arrays self with
  | [] => Some (showwarning "No Data" "Please perform interpolation first.")
  | _ :: _ =>
      let variable := viz_variable self in
      if String.eqb variable "" || negb (bool_decide (variable ∈ (interpolated_arrays self).*1))
      then Some (showwarning "Invalid Variable"
                   "Please select a valid variable to visualize.")
      else None
  end.

(** * Binary64

    The numbers of the program are IEEE doubles.  Two computations of the
    engine depend on how a double operation rounds: the length and the
    points of [np.arange], and the blend of lines 921-923.  They are given
    here a second time on [float], the binary64 numbers, operation by
    operation in the order the program evaluates them. *)

#[global] Instance float_inhabited : Inhabited float := populate 0%float.


Definition SF2Q (f : spec_float) : Q :=
  match f with
  | S754_finite s m e =>
      ((if s then -1 else 1) * inject_Z (Z.pos m) * Qpower 2 e)%Q
  | _ => 0%Q
  end.

Definition to_Q (x : float) : Q := SF2Q (Prim2SF x).

(** The double of a list index. *)
Definition float_of_nat (i : nat) : float := of_uint63 (Uint63.of_Z (Z.of_nat i)).

(** The largest array index (npy_intp, 64 bits). *)
Definition max_intp : Z := (2 ^ 63 - 1)%Z.

(** The points of [np.arange]: [start], [start + step], and then
    [start + i * delta] with [delta = (start + step) - start]. *)
Definition arange_points (start step : float) (len : Z) : list float :=
  let next := (start + step)%float in
  let delta := (next - start)%float in
  (fun i => match i with
            | 0 => start
            | 1 => next
            | _ => (start + float_of_nat i * delta)%float
            end) <$> seq 0 (Z.to_nat len).

(** [np.arange(start, stop, step)] on Python floats.  The length is
    [ceil((stop - start) / step)], difference and quotient being computed
    in binary64.  Python's division raises on a zero step.  numpy raises
    when the quotient is not a finite number, when its ceiling is not an
    index, or when an array of that many doubles is beyond the index
    range (8 bytes each); a quotient that underflowed to zero from a range
    that is not empty gives one point when positive. *)
Definition arange_binary64 (start stop step : float) : result (list float) :=
  if (step =? 0)%float then Raise ZeroDivisionError
  else
    let range := (stop - start)%float in
    let value := (range / step)%float in
    match Prim2SF value with
    | S754_nan | S754_infinity _ => Raise ValueError
    | S754_zero negative =>
        let len := if negb (range =? 0)%float && negb negative then 1%Z else 0%Z in
        Ok (arange_points start step len)
    | S754_finite _ _ _ =>
        let len := Qceiling (to_Q value) in
        if (len <? - max_intp - 1)%Z || (max_intp <? 8 * len)%Z
        then Raise ValueError
        else Ok (arange_points start step len)
    end.




(** ** Doubles and the rationals they stand for *)





(** * Vocabulary of the properties *)

(** Order of two indices by their keys. *)
Definition key_le (key : nat -> Q) (i j : nat) : Prop := (key i <= key j)%Q.

(** The cell of a column at a depth index; missing outside the column. *)
Definition cell_at (col : list cell) (d : nat) : cell :=
  match col !! d with Some c => c | None => None end.

(** Every row has [m] cells. *)
Definition rows_of_length (m : nat) (a : array2) : Prop :=
  Forall (fun row : list cell => length row = m) a.

(** Cells written over a column: [ws !! d = Some (Some x)] writes [x] at
    index [d], anything else leaves the cell as it is. *)
Definition overlay (col : list cell) (ws : list (option Q)) : list cell :=
  imap (fun d c => match ws !! d with Some (Some x) => Some x | _ => c end) col.

(** [depths_sorted] and [values_sorted] of line 895-896 for the readings
    [rs]. *)
Definition depths_sorted_of (rs : list (Q * Q)) : list Q :=
  take_indices rs.*1 (argsort rs.*1).

Definition values_sorted_of (rs : list (Q * Q)) : list Q :=
  take_indices rs.*2 (argsort rs.*1).

(** The column the time loop leaves for a list of valid readings. *)
Definition column_of_readings (depth_points : list Q) (rs : list (Q * Q)) : list cell :=
  if 2 <=? length rs then
    interpolate_at (depths_sorted_of rs) (values_sorted_of rs) <$> depth_points
  else if length rs =? 1 then replicate (length depth_points) (Some (rs.*2 !!! 0))
  else replicate (length depth_points) None.

(** What the fill pass makes of a column. *)
Definition fill_col (col : list cell) : list cell :=
  match where_valid col with
  | [] => col
  | lo :: rest =>
      let hi := List.last (lo :: rest) 0 in
      imap (fun d c => if d <? lo then cell_at col lo
                       else if hi <? d then cell_at col hi else c) col
  end.

(** The test [fill_values and depths] after a time loop of [T > 0] turns:
    [depths] holds the depths of the valid readings at the last time
    index. *)
Definition fill_pass_runs (fill_values : bool) (vd : list (Q * list cell)) (T : nat) : bool :=
  fill_values && (0 <? length (readings vd (T - 1))).

(** A column of the returned grid, from the column the time loop left. *)
Definition final_column (runs : bool) (col : list cell) : list cell :=
  if runs then fill_col col else col.

(** The readings in ascending order of depth: what [depths_sorted] and
    [values_sorted] hold side by side. *)
Definition sorted_readings (rs : list (Q * Q)) : list (Q * Q) :=
  (fun i => (rs.*1 !!! i, rs.*2 !!! i)) <$> argsort rs.*1.

(** The keys of a dict keyed by depth: no two of them are equal numbers. *)
Fixpoint distinct (l : list Q) : Prop :=
  match l with
  | [] => True
  | x :: l' => Forall (fun y => ~ (x == y)%Q) l' /\ distinct l'
  end.


(** A depth axis that does not decrease with its index. *)
Definition ascending (dp : list Q) : Prop :=
  forall i j x y, i <= j -> dp !! i = Some x -> dp !! j = Some y -> (x <= y)%Q.

(** No missing cell strictly between two cells that hold a value. *)
Definition contiguous (col : list cell) : Prop :=
  forall i k j x y, i < k -> k < j ->
    col !! i = Some (Some x) -> col !! j = Some (Some y) ->
    exists z, col !! k = Some (Some z).

(** An axis that runs one way: what [arange] yields for a non-zero step. *)
Definition one_way (dp : list Q) : Prop :=
  ascending dp \/
  (forall i j x y, i <= j -> dp !! i = Some x -> dp !! j = Some y -> (y <= x)%Q).

(** Two sensors at depths 1 and 2, two timestamps; both sensors have a
    value at the first timestamp and none at the second.  Depth axis
    0, 1, 2, 3; the fill option is on. *)
Definition stale_depths_input : SensorDataProcessor :=
  mkProcessor
    [(1%Q, mkDataFrame [0%Z; 1%Z] [("temp"%string, [Some 10%Q; None])]);
     (2%Q, mkDataFrame [0%Z; 1%Z] [("temp"%string, [Some 20%Q; None])])]
    1%Q 3%Q true [("temp"%string, true)] [] [] ""%string ""%string ""%string 2 [].

(** What a run reads: the registry, the configuration and the ticked
    variables. *)
Definition inputs (self : SensorDataProcessor) :=
  (depth_arrays self, depth_resolution self, max_depth self, fill_values self,
   interp_var_checkboxes self).



(** Sensors at depths 1 and 5 with values 2 and 6 at the only timestamp. *)
Definition two_readings : list (Q * list cell) :=
  [(1%Q, [Some 2%Q]); (5%Q, [Some 6%Q])].

(** A sensor at depth 1 with value 2 at the first of two timestamps. *)
Definition one_reading : list (Q * list cell) :=
  [(1%Q, [Some 2%Q; None]); (5%Q, [None; None])].

Definition axis_0_to_5 : list Q := [0%Q; 1%Q; 2%Q; 3%Q; 4%Q; 5%Q].

(** The application object of [stale_depths_input] after an earlier run:
    grids, status line and tab differ, what a run reads does not. *)
Definition stale_depths_input_later : SensorDataProcessor :=
  set_status "Interpolated 1 variables" 3
    (set_interpolated_arrays [("salinity"%string, mkGrid [] [] [])] stale_depths_input).


(** * Further vocabulary *)

(** The value a frame holds for a variable at a timestamp: the first row
    with that label, NaN when the frame has no such label. *)
Definition value_at (df : DataFrame) (var : string) (t : timestamp) : cell :=
  match rows_at t (index df) (get_column var (columns df)) with
  | v :: _ => v
  | [] => None
  end.




(** A frame with two rows and one column. *)
Definition temp_frame : DataFrame :=
  mkDataFrame [0%Z; 1%Z] [("temp"%string, [Some 10%Q; None])].

(** A grid of three depths and one timestamp with one value. *)
Definition one_value_grid : array2 := [[None]; [Some 1%Q]; [None]].

(** The first lines of a logger file: a serial number, the header, the
    units. *)
Definition logger_lines : list string :=
  ["Serial 123"%string; "time,temp"%string; "s,C"%string].

(** * Properties *)

(** ** Arrays: a column is touched only by the writes to it *)

Lemma column_lookup (a : array2) (t d : nat) :
  cell_at (column a t) d = get a d t.
Proof.
  unfold cell_at, column, get. rewrite list_lookup_fmap.
  destruct (a !! d); simpl; reflexivity.
Qed.

Lemma length_column (a : array2) (t : nat) : length (column a t) = length a.
Proof. unfold column. apply length_fmap. Qed.

Lemma full_nan_rows n m : rows_of_length m (full_nan n m).
Proof.
  unfold rows_of_length, full_nan. apply Forall_replicate.
  apply length_replicate.
Qed.

Lemma length_full_nan n m : length (full_nan n m) = n.
Proof. apply length_replicate. Qed.

Lemma column_full_nan n m t : column (full_nan n m) t = replicate n None.
Proof.
  unfold column, full_nan. rewrite fmap_replicate. f_equal.
  destruct (replicate m None !! t) as [c|] eqn:E; [|reflexivity].
  apply lookup_replicate in E. tauto.
Qed.

Lemma set_cell_rows m a d t x :
  rows_of_length m a -> rows_of_length m (set_cell a d t x).
Proof.
  unfold rows_of_length, set_cell. intros H.
  apply Forall_alter; [exact H|]. intros row _ Hrow.
  rewrite length_insert. exact Hrow.
Qed.

Lemma length_set_cell a d t x : length (set_cell a d t x) = length a.
Proof. apply length_alter. Qed.

Lemma column_set_cell_ne a d t t' x :
  t <> t' -> column (set_cell a d t x) t' = column a t'.
Proof.
  intros Hne. unfold column, set_cell. apply list_eq. intros i.
  rewrite !list_lookup_fmap.
  destruct (decide (d = i)) as [->|Hd].
  - rewrite list_lookup_alter_eq. destruct (a !! i); simpl; [|reflexivity].
    rewrite list_lookup_insert_ne by exact Hne. reflexivity.
  - rewrite list_lookup_alter_ne by exact Hd. reflexivity.
Qed.

Lemma column_set_cell_eq m a d t x :
  rows_of_length m a -> t < m ->
  column (set_cell a d t x) t = <[d := x]> (column a t).
Proof.
  intros Hrows Ht. unfold column, set_cell. apply list_eq. intros i.
  rewrite list_lookup_fmap.
  destruct (decide (d = i)) as [->|Hd].
  - rewrite list_lookup_alter_eq.
    destruct (a !! i) as [row|] eqn:E; simpl.
    + rewrite list_lookup_insert_eq.
      * rewrite list_lookup_insert_eq; [reflexivity|].
        rewrite length_fmap. eapply lookup_lt_Some; eauto.
      * eapply Forall_lookup_1 in Hrows; eauto. simpl in Hrows. lia.
    + rewrite list_insert_ge.
      * rewrite list_lookup_fmap, E. reflexivity.
      * rewrite length_fmap. apply lookup_ge_None. exact E.
  - rewrite list_lookup_alter_ne by exact Hd.
    rewrite list_lookup_insert_ne by exact Hd.
    rewrite list_lookup_fmap. reflexivity.
Qed.

Lemma length_set_column a t x : length (set_column a t x) = length a.
Proof. apply length_fmap. Qed.

Lemma set_column_rows m a t x :
  rows_of_length m a -> rows_of_length m (set_column a t x).
Proof.
  unfold rows_of_length, set_column. intros H.
  apply Forall_fmap. eapply Forall_impl; [exact H|].
  intros row Hrow. simpl. rewrite length_insert. exact Hrow.
Qed.

Lemma column_set_column_ne a t t' x :
  t <> t' -> column (set_column a t x) t' = column a t'.
Proof.
  intros Hne. unfold column, set_column. rewrite <- list_fmap_compose.
  apply list_fmap_ext. intros i row _. simpl.
  rewrite list_lookup_insert_ne by exact Hne. reflexivity.
Qed.

Lemma column_set_column_eq m a t x :
  rows_of_length m a -> t < m ->
  column (set_column a t x) t = replicate (length a) x.
Proof.
  intros Hrows Ht. unfold column, set_column. rewrite <- list_fmap_compose.
  induction Hrows as [|row a Hrow Hrows IH]; [reflexivity|].
  simpl. rewrite list_lookup_insert_eq by lia. f_equal. exact IH.
Qed.

Lemma length_set_column_range a lo hi t x :
  length (set_column_range a lo hi t x) = length a.
Proof. apply length_imap. Qed.

Lemma set_column_range_rows m a lo hi t x :
  rows_of_length m a -> rows_of_length m (set_column_range a lo hi t x).
Proof.
  unfold rows_of_length, set_column_range. intros H.
  apply Forall_lookup_2. intros i row Hi.
  rewrite list_lookup_imap in Hi.
  destruct (a !! i) as [row0|] eqn:E; simpl in Hi; [|discriminate].
  pose proof (Forall_lookup_1 _ _ _ _ H E) as Hr. simpl in Hr.
  injection Hi as <-. destruct (_ && _); [rewrite length_insert|]; exact Hr.
Qed.

Lemma column_set_column_range_ne a lo hi t t' x :
  t <> t' -> column (set_column_range a lo hi t x) t' = column a t'.
Proof.
  intros Hne. unfold column, set_column_range. apply list_eq. intros i.
  rewrite !list_lookup_fmap, list_lookup_imap.
  destruct (a !! i) as [row|]; simpl; [|reflexivity].
  destruct (_ && _); [|reflexivity].
  rewrite list_lookup_insert_ne by exact Hne. reflexivity.
Qed.

Lemma column_set_column_range_eq m a lo hi t x :
  rows_of_length m a -> t < m ->
  column (set_column_range a lo hi t x) t =
  imap (fun d c => if (lo <=? d) && (d <? hi) then x else c) (column a t).
Proof.
  intros Hrows Ht. unfold column, set_column_range. apply list_eq. intros i.
  rewrite list_lookup_fmap, !list_lookup_imap, list_lookup_fmap.
  destruct (a !! i) as [row|] eqn:E; simpl; [|reflexivity].
  pose proof (Forall_lookup_1 _ _ _ _ Hrows E) as Hr. simpl in Hr.
  destruct (_ && _); [|reflexivity].
  rewrite list_lookup_insert_eq by lia. reflexivity.
Qed.

(** ** The time loop, column by column *)

Lemma interpolate_column_snoc a t ds vs dp depth :
  interpolate_column a t ds vs (dp ++ [depth]) =
  match interpolate_at ds vs depth with
  | Some x => set_cell (interpolate_column a t ds vs dp) (length dp) t (Some x)
  | None => interpolate_column a t ds vs dp
  end.
Proof.
  unfold interpolate_column. rewrite imap_app, foldl_app. simpl.
  rewrite Nat.add_0_r. reflexivity.
Qed.

Lemma interpolate_column_shape m a t ds vs dp :
  rows_of_length m a ->
  rows_of_length m (interpolate_column a t ds vs dp) /\
  length (interpolate_column a t ds vs dp) = length a.
Proof.
  intros Hrows. induction dp as [|depth dp IH] using rev_ind.
  - split; [exact Hrows|reflexivity].
  - rewrite interpolate_column_snoc. destruct IH as [IH1 IH2].
    destruct (interpolate_at ds vs depth).
    + split; [apply set_cell_rows; exact IH1|].
      rewrite length_set_cell. exact IH2.
    + split; assumption.
Qed.

Lemma interpolate_column_other a t t' ds vs dp :
  t <> t' -> column (interpolate_column a t ds vs dp) t' = column a t'.
Proof.
  intros Hne. induction dp as [|depth dp IH] using rev_ind; [reflexivity|].
  rewrite interpolate_column_snoc. destruct (interpolate_at ds vs depth).
  - rewrite column_set_cell_ne by exact Hne. exact IH.
  - exact IH.
Qed.

Lemma interpolate_column_this m a t ds vs dp :
  rows_of_length m a -> t < m ->
  column (interpolate_column a t ds vs dp) t =
  overlay (column a t) (interpolate_at ds vs <$> dp).
Proof.
  intros Hrows Ht. induction dp as [|depth dp IH] using rev_ind.
  - change (interpolate_column a t ds vs []) with a.
    unfold overlay. apply list_eq. intros i. rewrite list_lookup_imap.
    destruct (column a t !! i); reflexivity.
  - rewrite interpolate_column_snoc.
    destruct (interpolate_column_shape m a t ds vs dp Hrows) as [Hr _].
    rewrite fmap_app. simpl.
    destruct (interpolate_at ds vs depth) as [x|] eqn:E.
    + rewrite (column_set_cell_eq m) by assumption. rewrite IH.
      unfold overlay. apply list_eq. intros i.
      rewrite list_lookup_imap.
      destruct (decide (length dp = i)) as [<-|Hi].
      * rewrite lookup_app_r by (rewrite length_fmap; lia).
        rewrite length_fmap, Nat.sub_diag. simpl.
        destruct (column a t !! length dp) as [c|] eqn:Ec; simpl.
        -- rewrite list_lookup_insert_eq; [reflexivity|].
           rewrite length_imap. eapply lookup_lt_Some; eauto.
        -- rewrite list_insert_ge; [rewrite list_lookup_imap, Ec; reflexivity|].
           rewrite length_imap. apply lookup_ge_None. exact Ec.
      * rewrite list_lookup_insert_ne by exact Hi.
        rewrite list_lookup_imap.
        destruct (column a t !! i) as [c|]; simpl; [|reflexivity].
        destruct (decide (i < length dp)).
        -- rewrite lookup_app_l by (rewrite length_fmap; lia). reflexivity.
        -- rewrite lookup_app_r by (rewrite length_fmap; lia).
           rewrite length_fmap.
           rewrite (lookup_ge_None_2 (interpolate_at ds vs <$> dp))
             by (rewrite length_fmap; lia).
           destruct (i - length dp) as [|k] eqn:Ek; [lia|]. reflexivity.
    + rewrite IH. unfold overlay. apply list_eq. intros i.
      rewrite !list_lookup_imap.
      destruct (column a t !! i) as [c|]; simpl; [|reflexivity].
      destruct (decide (i < length dp)).
      * rewrite lookup_app_l by (rewrite length_fmap; lia). reflexivity.
      * rewrite lookup_app_r by (rewrite length_fmap; lia).
        rewrite length_fmap.
        rewrite (lookup_ge_None_2 (interpolate_at ds vs <$> dp))
          by (rewrite length_fmap; lia).
        destruct (i - length dp) as [|k]; reflexivity.
Qed.

Lemma overlay_nan (ws : list (option Q)) :
  overlay (replicate (length ws) None) ws = ws.
Proof.
  unfold overlay. apply list_eq. intros i. rewrite list_lookup_imap.
  destruct (ws !! i) as [w|] eqn:E.
  - rewrite lookup_replicate_2 by (eapply lookup_lt_Some; eauto).
    simpl. destruct w; reflexivity.
  - rewrite (lookup_ge_None_2 (replicate _ _)); [reflexivity|].
    rewrite length_replicate. apply lookup_ge_None. exact E.
Qed.

Lemma time_step_spec m vd dp a t :
  rows_of_length m a -> t < m -> length a = length dp ->
  column a t = replicate (length dp) None ->
  column (time_step vd dp a t).1 t = column_of_readings dp (readings vd t) /\
  (forall t', t <> t' -> column (time_step vd dp a t).1 t' = column a t') /\
  rows_of_length m (time_step vd dp a t).1 /\
  length (time_step vd dp a t).1 = length a /\
  (time_step vd dp a t).2 = (readings vd t).*1.
Proof.
  intros Hrows Ht Hlen Hnan. unfold time_step, column_of_readings.
  rewrite !length_fmap.
  destruct (2 <=? length (readings vd t)) eqn:E2; simpl.
  - destruct (interpolate_column_shape m a t
                (take_indices (readings vd t).*1 (argsort (readings vd t).*1))
                (take_indices (readings vd t).*2 (argsort (readings vd t).*1))
                dp Hrows) as [Hr Hl].
    split_and!; try assumption; try reflexivity.
    + rewrite (interpolate_column_this m) by assumption.
      rewrite Hnan. fold (depths_sorted_of (readings vd t)).
      fold (values_sorted_of (readings vd t)).
      rewrite <- (length_fmap (interpolate_at (depths_sorted_of (readings vd t))
                                 (values_sorted_of (readings vd t))) dp) at 1.
      apply overlay_nan.
    + intros t' Hne. apply interpolate_column_other. exact Hne.
  - destruct (length (readings vd t) =? 1) eqn:E1; simpl.
    + split_and!; try reflexivity.
      * rewrite (column_set_column_eq m) by assumption. rewrite Hlen. reflexivity.
      * intros t' Hne. apply column_set_column_ne. exact Hne.
      * apply set_column_rows. exact Hrows.
      * apply length_set_column.
    + split_and!; try assumption; try reflexivity.
Qed.

Lemma time_loop_S vd dp T a d :
  time_loop vd dp (S T) a d =
  let '(a', _) := time_loop vd dp T a d in
  let '(a'', depths) := time_step vd dp a' T in (a'', Some depths).
Proof.
  unfold time_loop. rewrite seq_S, foldl_app. simpl.
  destruct (foldl _ _ _) as [a' d']. reflexivity.
Qed.

Lemma time_loop_spec m vd dp T a d :
  rows_of_length m a -> T <= m -> length a = length dp ->
  (forall t, column a t = replicate (length dp) None) ->
  rows_of_length m (time_loop vd dp T a d).1 /\
  length (time_loop vd dp T a d).1 = length dp /\
  (forall t, t < T ->
     column (time_loop vd dp T a d).1 t = column_of_readings dp (readings vd t)) /\
  (forall t, T <= t ->
     column (time_loop vd dp T a d).1 t = replicate (length dp) None) /\
  (time_loop vd dp T a d).2 =
    match T with 0 => d | S T' => Some (readings vd T').*1 end.
Proof.
  intros Hrows HT Hlen Hnan. induction T as [|T IH].
  - unfold time_loop. simpl. split_and!; try assumption; try reflexivity.
    + intros t Ht. lia.
    + intros t _. apply Hnan.
  - rewrite time_loop_S. destruct IH as (IH1 & IH2 & IH3 & IH4 & IH5); [lia|].
    destruct (time_loop vd dp T a d) as [a' d'] eqn:E. simpl in *.
    destruct (time_step_spec m vd dp a' T IH1) as (S1 & S2 & S3 & S4 & S5);
      [lia|exact IH2|apply IH4; lia|].
    destruct (time_step vd dp a' T) as [a'' ds]. simpl in *.
    split_and!.
    + exact S3.
    + lia.
    + intros t Ht. destruct (decide (t = T)) as [->|Hne]; [exact S1|].
      rewrite S2 by lia. apply IH3. lia.
    + intros t Ht. rewrite S2 by lia. apply IH4. lia.
    + subst ds. reflexivity.
Qed.

(** ** The fill pass, column by column *)

Lemma where_valid_sorted (col : list cell) : StronglySorted lt (where_valid col).
Proof.
  unfold where_valid. generalize 0 as k. generalize (length col) as n.
  induction n as [|n IH]; intros k; simpl; [constructor|].
  destruct (negb _).
  - constructor; [apply IH|].
    apply Forall_forall. intros j Hj. apply list_elem_of_In in Hj.
    apply filter_In in Hj as [Hj _]. apply in_seq in Hj. lia.
  - apply IH.
Qed.

Lemma last_in {A} (x : A) (l : list A) (d : A) : In (List.last (x :: l) d) (x :: l).
Proof.
  revert x. induction l as [|y l IH]; intros x; [left; reflexivity|].
  right. apply (IH y).
Qed.

Lemma where_valid_first_le_last lo rest (col : list cell) :
  where_valid col = lo :: rest -> lo <= List.last (lo :: rest) 0.
Proof.
  intros E. pose proof (where_valid_sorted col) as Hs. rewrite E in Hs.
  inversion Hs as [|? ? _ Hall]; subst.
  destruct (last_in lo rest 0) as [<-|Hin]; [lia|].
  rewrite Forall_forall in Hall. apply list_elem_of_In in Hin.
  specialize (Hall _ Hin). lia.
Qed.

Lemma where_valid_bound (col : list cell) i :
  In i (where_valid col) -> i < length col.
Proof.
  unfold where_valid. intros H. apply filter_In in H as [H _].
  apply in_seq in H. lia.
Qed.

Lemma fill_column_spec m a t :
  rows_of_length m a -> t < m ->
  column (fill_column a t) t = fill_col (column a t) /\
  (forall t', t <> t' -> column (fill_column a t) t' = column a t') /\
  rows_of_length m (fill_column a t) /\
  length (fill_column a t) = length a.
Proof.
  intros Hrows Ht. unfold fill_column, fill_col.
  destruct (where_valid (column a t)) as [|lo rest] eqn:E.
  - simpl. split_and!; try assumption; try reflexivity.
  - pose proof (where_valid_first_le_last lo rest _ E) as Hle.
    assert (Hhi : List.last (lo :: rest) 0 < length a).
    { rewrite <- (length_column a t). apply where_valid_bound.
      rewrite E. apply last_in. }
    remember (List.last (lo :: rest) 0) as hi eqn:Ehi. clear Ehi.
    change (0 <? length (lo :: rest)) with true.
    change ((lo :: rest) !!! 0) with lo. cbv iota zeta.
    pose proof (set_column_range_rows m a 0 lo t (get a lo t) Hrows) as Hr1.
    split_and!.
    + rewrite (column_set_column_range_eq m) by assumption.
      rewrite (column_set_column_range_eq m) by assumption.
      rewrite length_set_column_range.
      rewrite <- !column_lookup.
      rewrite (column_set_column_range_eq m) by assumption.
      apply list_eq. intros i. rewrite !list_lookup_imap.
      destruct (column a t !! i) as [c|] eqn:Ec; simpl; [|reflexivity].
      assert (i < length a).
      { rewrite <- (length_column a t). eapply lookup_lt_Some; eauto. }
      f_equal. unfold cell_at at 1. rewrite list_lookup_imap.
      destruct (column a t !! hi) as [ch|] eqn:Eh.
      2:{ apply lookup_ge_None in Eh. rewrite length_column in Eh. lia. }
      simpl.
      destruct (i <? lo) eqn:E1; destruct (hi <? i) eqn:E2;
        destruct (hi + 1 <=? i) eqn:E3; destruct (i <? length a) eqn:E4;
        destruct (hi <? lo) eqn:E5; simpl;
        repeat match goal with
               | H : (_ <? _) = true |- _ => apply Nat.ltb_lt in H
               | H : (_ <? _) = false |- _ => apply Nat.ltb_ge in H
               | H : (_ <=? _) = true |- _ => apply Nat.leb_le in H
               | H : (_ <=? _) = false |- _ => apply Nat.leb_gt in H
               end; try lia; try reflexivity;
        unfold cell_at; rewrite ?Eh; reflexivity.
    + intros t' Hne. rewrite !column_set_column_range_ne by exact Hne. reflexivity.
    + apply set_column_range_rows. exact Hr1.
    + rewrite !length_set_column_range. reflexivity.
Qed.

Lemma fill_loop_spec m a T :
  rows_of_length m a -> T <= m ->
  rows_of_length m (foldl fill_column a (seq 0 T)) /\
  length (foldl fill_column a (seq 0 T)) = length a /\
  (forall t, t < T ->
     column (foldl fill_column a (seq 0 T)) t = fill_col (column a t)) /\
  (forall t, T <= t -> column (foldl fill_column a (seq 0 T)) t = column a t).
Proof.
  intros Hrows HT. induction T as [|T IH].
  - simpl. split_and!; try assumption; try reflexivity. intros t Ht. lia.
  - rewrite seq_S, foldl_app. simpl.
    destruct IH as (IH1 & IH2 & IH3 & IH4); [lia|].
    destruct (fill_column_spec m (foldl fill_column a (seq 0 T)) T IH1)
      as (F1 & F2 & F3 & F4); [lia|].
    split_and!.
    + exact F3.
    + lia.
    + intros t Ht. destruct (decide (t = T)) as [->|Hne].
      * rewrite F1. rewrite IH4 by lia. reflexivity.
      * rewrite F2 by lia. apply IH3. lia.
    + intros t Ht. rewrite F2 by lia. apply IH4. lia.
Qed.

(** ** The grid of one variable *)

Lemma interpolate_variable_raises vd dp T fill d e :
  interpolate_variable vd dp T fill d = Raise e ->
  fill = true /\ T = 0 /\ d = None /\ e = UnboundLocalError.
Proof.
  unfold interpolate_variable.
  pose proof (time_loop_spec T vd dp T (full_nan (length dp) T) d
                (full_nan_rows _ _) (le_n _) (length_full_nan _ _)
                (column_full_nan _ _)) as (_ & _ & _ & _ & Hd).
  destruct (time_loop vd dp T _ d) as [a d']. simpl in Hd.
  destruct fill; [|discriminate].
  destruct d' as [[|x l]|]; try discriminate.
  intros H. injection H as <-. destruct T; [|discriminate]. auto.
Qed.

Lemma interpolate_variable_spec vd dp T fill d a d' :
  interpolate_variable vd dp T fill d = Ok (a, d') ->
  length a = length dp /\ rows_of_length T a /\
  forall t, t < T ->
    column a t = final_column (fill_pass_runs fill vd T)
                   (column_of_readings dp (readings vd t)).
Proof.
  unfold interpolate_variable, fill_pass_runs, final_column.
  pose proof (time_loop_spec T vd dp T (full_nan (length dp) T) d
                (full_nan_rows _ _) (le_n _) (length_full_nan _ _)
                (column_full_nan _ _)) as (L1 & L2 & L3 & _ & Hd).
  destruct (time_loop vd dp T _ d) as [a0 d0]. simpl in *.
  destruct (fill_loop_spec T a0 T L1 (le_n _)) as (F1 & F2 & F3 & _).
  destruct fill; simpl.
  - destruct d0 as [[|x l]|]; try discriminate; intros H; injection H as <- <-.
    + split_and!; try assumption. intros t Ht. rewrite L3 by exact Ht.
      destruct T; [lia|]. injection Hd as Hd. simpl.
      rewrite Nat.sub_0_r. destruct (readings vd T); [reflexivity|discriminate].
    + split_and!; try assumption; [lia|]. intros t Ht.
      rewrite F3, L3 by exact Ht.
      destruct T; [lia|]. injection Hd as Hd. simpl.
      rewrite Nat.sub_0_r. destruct (readings vd T); [discriminate|reflexivity].
  - intros H; injection H as <- <-. split_and!; assumption.
Qed.

Lemma interpolate_variable_returns vd dp T fill d :
  0 < T -> exists a d', interpolate_variable vd dp T fill d = Ok (a, d').
Proof.
  intros HT. destruct (interpolate_variable vd dp T fill d) as [[a d']|e] eqn:E.
  - eauto.
  - apply interpolate_variable_raises in E. lia.
Qed.

(** ** Sorting the readings of one time index *)

Section Argsort.
Variable key : nat -> Q.

Lemma insert_by_key_perm i l : Permutation (insert_by_key key i l) (i :: l).
Proof.
  induction l as [|j l IH]; simpl; [reflexivity|].
  destruct (Qle_bool (key i) (key j)); [reflexivity|].
  rewrite IH. apply perm_swap.
Qed.

Lemma insert_by_key_sorted i l :
  StronglySorted (key_le key) l -> StronglySorted (key_le key) (insert_by_key key i l).
Proof.
  induction l as [|j l IH]; intros Hs; simpl.
  - constructor; constructor.
  - inversion Hs as [|? ? Hs' Hall]; subst.
    destruct (Qle_bool (key i) (key j)) eqn:E.
    + apply Qle_bool_iff in E. constructor; [exact Hs|].
      constructor; [exact E|].
      eapply Forall_impl; [exact Hall|]. intros k Hk. simpl in *.
      unfold key_le in *. eapply Qle_trans; eauto.
    + assert (Hji : key_le key j i).
      { unfold key_le. destruct (Qlt_le_dec (key j) (key i)) as [Hlt|Hle].
        - apply Qlt_le_weak. exact Hlt.
        - apply Qle_bool_iff in Hle. congruence. }
      constructor; [apply IH; exact Hs'|].
      rewrite (insert_by_key_perm i l). constructor; assumption.
Qed.

Lemma sort_by_key_perm l : Permutation (foldr (insert_by_key key) [] l) l.
Proof.
  induction l as [|i l IH]; simpl; [reflexivity|].
  rewrite insert_by_key_perm. constructor. exact IH.
Qed.

Lemma sort_by_key_sorted l : StronglySorted (key_le key) (foldr (insert_by_key key) [] l).
Proof.
  induction l as [|i l IH]; simpl; [constructor|].
  apply insert_by_key_sorted. exact IH.
Qed.
End Argsort.

Lemma argsort_perm (a : list Q) : Permutation (argsort a) (seq 0 (length a)).
Proof. apply sort_by_key_perm. Qed.

Lemma take_indices_sorted (a : list Q) :
  StronglySorted Qle (take_indices a (argsort a)).
Proof.
  unfold take_indices, argsort.
  pose proof (sort_by_key_sorted (fun i => a !!! i) (seq 0 (length a))) as Hs.
  induction Hs as [|i l Hs IH Hall]; simpl; constructor.
  - exact IH.
  - apply Forall_fmap. eapply Forall_impl; [exact Hall|].
    intros j Hj. exact Hj.
Qed.

Lemma depths_sorted_of_fst rs : depths_sorted_of rs = (sorted_readings rs).*1.
Proof.
  unfold depths_sorted_of, sorted_readings, take_indices.
  rewrite <- list_fmap_compose. reflexivity.
Qed.

Lemma values_sorted_of_snd rs : values_sorted_of rs = (sorted_readings rs).*2.
Proof.
  unfold values_sorted_of, sorted_readings, take_indices.
  rewrite <- list_fmap_compose. reflexivity.
Qed.

Lemma gather_all (rs : list (Q * Q)) :
  (fun i => (rs.*1 !!! i, rs.*2 !!! i)) <$> seq 0 (length rs) = rs.
Proof.
  apply list_eq. intros i. rewrite list_lookup_fmap.
  destruct (rs !! i) as [[d v]|] eqn:E.
  - rewrite lookup_seq_lt by (eapply lookup_lt_Some; eauto). simpl.
    rewrite !list_lookup_total_alt, !list_lookup_fmap, E. reflexivity.
  - rewrite lookup_seq_ge by (apply lookup_ge_None; exact E). reflexivity.
Qed.

Lemma sorted_readings_perm rs : Permutation (sorted_readings rs) rs.
Proof.
  unfold sorted_readings. rewrite argsort_perm, length_fmap.
  rewrite gather_all. reflexivity.
Qed.

Lemma sorted_readings_sorted rs : StronglySorted Qle (sorted_readings rs).*1.
Proof. rewrite <- depths_sorted_of_fst. apply take_indices_sorted. Qed.

Lemma length_sorted_readings rs : length (sorted_readings rs) = length rs.
Proof. apply Permutation_length, sorted_readings_perm. Qed.

Lemma distinct_perm l l' : Permutation l l' -> distinct l -> distinct l'.
Proof.
  induction 1 as [|x l l' Hp IH|x y l|l l' l'' _ IH1 _ IH2]; simpl.
  - trivial.
  - intros [Hx Hd]. split; [|apply IH; exact Hd].
    rewrite <- Hp. exact Hx.
  - intros [Hy [Hx Hd]]. inversion Hy as [|? ? Hyx Hy']; subst.
    split_and!; try assumption.
    constructor; [|exact Hx]. intros E. apply Hyx. symmetry. exact E.
  - intros Hd. apply IH2, IH1, Hd.
Qed.

Lemma readings_Forall (P : Q -> Prop) vd t :
  Forall P vd.*1 -> Forall P (readings vd t).*1.
Proof.
  unfold readings. induction vd as [|[d series] vd IH]; simpl; intros H.
  - constructor.
  - inversion H as [|? ? Hd H']; subst.
    destruct (series !! t) as [[v|]|]; simpl; [constructor; [exact Hd|]|..];
      apply IH; exact H'.
Qed.

Lemma distinct_readings vd t : distinct vd.*1 -> distinct (readings vd t).*1.
Proof.
  induction vd as [|[d series] vd IH]; simpl; intros H; [exact I|].
  destruct H as [Hd H]. unfold readings. simpl.
  destruct (series !! t) as [[v|]|]; simpl; [split|..];
    try (apply IH; exact H).
  apply (readings_Forall _ vd t). exact Hd.
Qed.

Lemma sorted_distinct_strict l :
  StronglySorted Qle l -> distinct l -> StronglySorted Qlt l.
Proof.
  induction 1 as [|x l Hs IH Hall]; simpl; intros Hd; constructor.
  - apply IH. apply Hd.
  - destruct Hd as [Hx _]. rewrite Forall_forall in *.
    intros y Hy. specialize (Hall y Hy). specialize (Hx y Hy).
    apply Qle_lteq in Hall. destruct Hall as [Hlt|Heq]; [exact Hlt|].
    contradiction.
Qed.

Lemma strict_lookup l i j x y :
  StronglySorted Qlt l -> i < j -> l !! i = Some x -> l !! j = Some y -> (x < y)%Q.
Proof.
  intros Hs. revert i j. induction Hs as [|z l Hs IH Hall]; intros i j Hij Hi Hj.
  - rewrite lookup_nil in Hi. discriminate.
  - destruct j as [|j]; [lia|]. simpl in Hj. destruct i as [|i].
    + simpl in Hi. injection Hi as <-. rewrite Forall_forall in Hall.
      apply Hall. eapply list_elem_of_lookup_2. exact Hj.
    + simpl in Hi. apply (IH i j); [lia|assumption..].
Qed.

Lemma strict_lookup_le l i j x y :
  StronglySorted Qlt l -> i <= j -> l !! i = Some x -> l !! j = Some y -> (x <= y)%Q.
Proof.
  intros Hs Hij Hi Hj. destruct (decide (i = j)) as [->|Hne].
  - rewrite Hi in Hj. injection Hj as <-. apply Qle_refl.
  - apply Qlt_le_weak. apply (strict_lookup l i j); [assumption|lia|assumption..].
Qed.

(** [searchsorted] *)

Lemma Qltb_lt x y : Qltb x y = true <-> (x < y)%Q.
Proof.
  unfold Qltb. rewrite negb_true_iff. split.
  - intros H. apply Qnot_le_lt. intros Hle. apply Qle_bool_iff in Hle. congruence.
  - intros H. destruct (Qle_bool y x) eqn:E; [|reflexivity].
    apply Qle_bool_iff in E. exfalso. apply (Qlt_not_le _ _ H). exact E.
Qed.

Lemma Qltb_ge x y : Qltb x y = false <-> (y <= x)%Q.
Proof.
  unfold Qltb. rewrite negb_false_iff. apply Qle_bool_iff.
Qed.




Lemma searchsorted_eq a v k :
  (forall j x, j < k -> a !! j = Some x -> (x < v)%Q) ->
  (forall x, a !! k = Some x -> (v <= x)%Q) ->
  k <= length a ->
  searchsorted a v = k.
Proof.
  revert k. induction a as [|z a IH]; simpl; intros k Hb Ha Hk; [lia|].
  destruct (Qltb z v) eqn:E.
  - destruct k as [|k].
    + specialize (Ha z eq_refl). apply Qltb_lt in E.
      exfalso. apply (Qlt_not_le _ _ E). exact Ha.
    + f_equal. apply IH; [|exact Ha|lia].
      intros j x Hj Hx. apply (Hb (S j)); [lia|exact Hx].
  - destruct k as [|k]; [reflexivity|].
    specialize (Hb 0 z ltac:(lia) eq_refl). apply Qltb_ge in E.
    exfalso. apply (Qlt_not_le _ _ Hb). exact E.
Qed.

(** ** The blend *)




Lemma blend_alt (d d1 d2 v1 v2 : Q) :
  (d1 < d2)%Q ->
  (blend d d1 d2 v1 v2 == v1 + (v2 - v1) * (d - d1) / (d2 - d1))%Q.
Proof. intros H. unfold blend. field. lra. Qed.



(** ** Interpolation against readings sorted by strictly increasing depth *)

Lemma lookup_pair (srs : list (Q * Q)) j d v :
  srs !! j = Some (d, v) -> srs.*1 !!! j = d /\ srs.*2 !!! j = v.
Proof.
  intros H. rewrite !list_lookup_total_alt, !list_lookup_fmap, H. split; reflexivity.
Qed.

Lemma last_lookup_total (l : list Q) :
  l <> [] -> l !! (length l - 1) = Some (last_elem l).
Proof.
  unfold last_elem. induction l as [|x l IH]; [congruence|]. intros _.
  destruct l as [|y l]; [reflexivity|].
  simpl in *. rewrite Nat.sub_0_r in IH. apply IH. congruence.
Qed.

Lemma in_range_iff (ds : list Q) (d : Q) :
  Qle_bool (ds !!! 0) d && Qle_bool d (last_elem ds) = true <->
  (ds !!! 0%nat <= d)%Q /\ (d <= last_elem ds)%Q.
Proof. rewrite andb_true_iff, !Qle_bool_iff. reflexivity. Qed.

Lemma interpolate_at_None (ds vs : list Q) (d : Q) :
  interpolate_at ds vs d = None <->
  Qle_bool (ds !!! 0) d && Qle_bool d (last_elem ds) = false.
Proof.
  unfold interpolate_at. destruct (_ && _).
  - repeat match goal with |- context [if ?b then _ else _] => destruct b end;
      split; discriminate.
  - split; reflexivity.
Qed.

Section SortedReadings.
Variable srs : list (Q * Q).
Hypothesis Hsorted : StronglySorted Qlt srs.*1.

Lemma srs_first_le j d v :
  srs !! j = Some (d, v) -> (srs.*1 !!! 0%nat <= d)%Q.
Proof.
  intros Hj. destruct srs as [|[d0 v0] l] eqn:E; [discriminate|].
  change (((d0, v0) :: l).*1 !!! 0) with d0.
  apply (strict_lookup_le ((d0, v0) :: l).*1 0 j); [exact Hsorted|lia|reflexivity|].
  rewrite list_lookup_fmap, Hj. reflexivity.
Qed.

Lemma srs_le_last j d v :
  srs !! j = Some (d, v) -> (d <= last_elem srs.*1)%Q.
Proof.
  intros Hj. pose proof (lookup_lt_Some _ _ _ Hj) as Hlt.
  apply (strict_lookup_le srs.*1 j (length srs.*1 - 1)); [exact Hsorted| | |].
  - rewrite length_fmap. lia.
  - rewrite list_lookup_fmap, Hj. reflexivity.
  - apply last_lookup_total. destruct srs; [discriminate|]. discriminate.
Qed.

Lemma searchsorted_exact j d dr v :
  srs !! j = Some (dr, v) -> (d == dr)%Q -> searchsorted srs.*1 d = j.
Proof.
  intros Hj Hd. apply searchsorted_eq.
  - intros i x Hi Hx.
    assert ((x < dr)%Q); [|lra].
    apply (strict_lookup srs.*1 i j); [exact Hsorted|exact Hi|exact Hx|].
    rewrite list_lookup_fmap, Hj. reflexivity.
  - intros x Hx. rewrite list_lookup_fmap, Hj in Hx. injection Hx as <-. lra.
  - rewrite length_fmap. apply Nat.lt_le_incl. eapply lookup_lt_Some; eauto.
Qed.

Lemma searchsorted_between j d d1 v1 d2 v2 :
  srs !! j = Some (d1, v1) -> srs !! S j = Some (d2, v2) ->
  (d1 < d)%Q -> (d < d2)%Q -> searchsorted srs.*1 d = S j.
Proof.
  intros Hj Hj' H1 H2. apply searchsorted_eq.
  - intros i x Hi Hx.
    assert ((x <= d1)%Q); [|lra].
    apply (strict_lookup_le srs.*1 i j); [exact Hsorted|lia|exact Hx|].
    rewrite list_lookup_fmap, Hj. reflexivity.
  - intros x Hx. rewrite list_lookup_fmap, Hj' in Hx. injection Hx as <-. lra.
  - rewrite length_fmap. apply Nat.lt_le_incl. eapply lookup_lt_Some; eauto.
Qed.

(** At the depth of a reading: that reading's value. *)
Lemma interpolate_at_exact j d dr v :
  srs !! j = Some (dr, v) -> (d == dr)%Q ->
  interpolate_at srs.*1 srs.*2 d = Some v.
Proof.
  intros Hj Hd. unfold interpolate_at.
  pose proof (srs_first_le j dr v Hj) as Hlo.
  pose proof (srs_le_last j dr v Hj) as Hhi.
  pose proof (lookup_lt_Some _ _ _ Hj) as Hlt.
  destruct (lookup_pair srs j dr v Hj) as [Ed Ev].
  replace (Qle_bool (srs.*1 !!! 0) d && Qle_bool d (last_elem srs.*1)) with true.
  2:{ symmetry. apply in_range_iff. split; lra. }
  rewrite (searchsorted_exact j d dr v Hj Hd).
  destruct (j =? 0) eqn:E0.
  - apply Nat.eqb_eq in E0. subst j. rewrite Ev. reflexivity.
  - rewrite length_fmap. destruct (j =? length srs) eqn:El.
    + apply Nat.eqb_eq in El. lia.
    + rewrite Ed, Ev.
      replace (Qeq_bool d dr) with true; [reflexivity|].
      symmetry. apply Qeq_bool_iff. exact Hd.
Qed.

(** Strictly between two neighbouring readings: their blend. *)
Lemma interpolate_at_between j d d1 v1 d2 v2 :
  srs !! j = Some (d1, v1) -> srs !! S j = Some (d2, v2) ->
  (d1 < d)%Q -> (d < d2)%Q ->
  interpolate_at srs.*1 srs.*2 d = Some (blend d d1 d2 v1 v2).
Proof.
  intros Hj Hj' H1 H2. unfold interpolate_at.
  pose proof (srs_first_le j d1 v1 Hj) as Hlo.
  pose proof (srs_le_last (S j) d2 v2 Hj') as Hhi.
  pose proof (lookup_lt_Some _ _ _ Hj') as Hlt.
  destruct (lookup_pair srs j d1 v1 Hj) as [Ed1 Ev1].
  destruct (lookup_pair srs (S j) d2 v2 Hj') as [Ed2 Ev2].
  replace (Qle_bool (srs.*1 !!! 0) d && Qle_bool d (last_elem srs.*1)) with true.
  2:{ symmetry. apply in_range_iff. split; lra. }
  rewrite (searchsorted_between j d d1 v1 d2 v2 Hj Hj' H1 H2).
  change (S j =? 0) with false. cbv iota.
  rewrite length_fmap. destruct (S j =? length srs) eqn:El.
  { apply Nat.eqb_eq in El. lia. }
  replace (S j - 1) with j by lia.
  rewrite Ed1, Ed2, Ev1, Ev2.
  replace (Qeq_bool d d2) with false; [reflexivity|].
  symmetry. apply not_true_iff_false. intros E. apply Qeq_bool_iff in E. lra.
Qed.

End SortedReadings.

Lemma sorted_readings_strict rs :
  distinct rs.*1 -> StronglySorted Qlt (sorted_readings rs).*1.
Proof.
  intros Hd. apply sorted_distinct_strict; [apply sorted_readings_sorted|].
  apply (distinct_perm rs.*1); [|exact Hd].
  symmetry. apply fmap_Permutation, sorted_readings_perm.
Qed.

Lemma column_of_readings_sorted dp rs :
  2 <= length rs ->
  column_of_readings dp rs =
  interpolate_at (sorted_readings rs).*1 (sorted_readings rs).*2 <$> dp.
Proof.
  intros H. unfold column_of_readings.
  rewrite depths_sorted_of_fst, values_sorted_of_snd.
  destruct (2 <=? length rs) eqn:E; [reflexivity|].
  apply Nat.leb_gt in E. lia.
Qed.

Lemma length_column_of_readings dp rs :
  length (column_of_readings dp rs) = length dp.
Proof.
  unfold column_of_readings.
  destruct (2 <=? length rs); [apply length_fmap|].
  destruct (length rs =? 1); apply length_replicate.
Qed.

Lemma In_lookup {A} (x : A) (l : list A) : In x l -> exists j, l !! j = Some x.
Proof. intros H. apply list_elem_of_In in H. apply list_elem_of_lookup_1. exact H. Qed.

Lemma lookup_In {A} (x : A) (l : list A) j : l !! j = Some x -> In x l.
Proof. intros H. apply list_elem_of_In. eapply list_elem_of_lookup_2. exact H. Qed.

Lemma sorted_readings_In rs p : In p (sorted_readings rs) <-> In p rs.
Proof.
  split; apply Permutation_in; [|symmetry]; apply sorted_readings_perm.
Qed.

(** Two readings with no reading strictly between them are neighbours in
    the sorted order. *)
Lemma neighbours_adjacent rs d1 v1 d2 v2 :
  distinct rs.*1 ->
  In (d1, v1) rs -> In (d2, v2) rs -> (d1 < d2)%Q ->
  (forall d' v', In (d', v') rs -> ~ ((d1 < d')%Q /\ (d' < d2)%Q)) ->
  exists j, sorted_readings rs !! j = Some (d1, v1) /\
            sorted_readings rs !! S j = Some (d2, v2).
Proof.
  intros Hd H1 H2 Hlt Hnone.
  pose proof (sorted_readings_strict rs Hd) as Hs.
  apply sorted_readings_In, In_lookup in H1 as [j1 E1].
  apply sorted_readings_In, In_lookup in H2 as [j2 E2].
  assert (F1 : (sorted_readings rs).*1 !! j1 = Some d1)
    by (rewrite list_lookup_fmap, E1; reflexivity).
  assert (F2 : (sorted_readings rs).*1 !! j2 = Some d2)
    by (rewrite list_lookup_fmap, E2; reflexivity).
  assert (j1 < j2).
  { destruct (decide (j1 < j2)); [assumption|]. exfalso.
    pose proof (strict_lookup_le _ j2 j1 _ _ Hs ltac:(lia) F2 F1). lra. }
  exists j1. split; [exact E1|].
  destruct (decide (S j1 = j2)) as [->|Hne]; [exact E2|]. exfalso.
  assert (Hm : S j1 < length (sorted_readings rs)).
  { pose proof (lookup_lt_Some _ _ _ E2). lia. }
  destruct (lookup_lt_is_Some_2 _ _ Hm) as [[dm vm] Em].
  assert (Fm : (sorted_readings rs).*1 !! S j1 = Some dm)
    by (rewrite list_lookup_fmap, Em; reflexivity).
  apply (Hnone dm vm).
  - apply sorted_readings_In. eapply lookup_In. exact Em.
  - split.
    + apply (strict_lookup _ j1 (S j1) _ _ Hs); [lia|assumption..].
    + apply (strict_lookup _ (S j1) j2 _ _ Hs); [lia|assumption..].
Qed.

(** ** What the fill pass does to a column *)

Lemma where_valid_In (col : list cell) i :
  In i (where_valid col) <-> exists x, col !! i = Some (Some x).
Proof.
  unfold where_valid. rewrite filter_In, in_seq. split.
  - intros [Hi Hv]. destruct (col !! i) as [[x|]|] eqn:E; try discriminate.
    eauto.
  - intros [x E]. rewrite E. split; [|reflexivity].
    pose proof (lookup_lt_Some _ _ _ E). lia.
Qed.

Lemma sorted_le_last (l : list nat) x rest i :
  StronglySorted lt (x :: rest) -> In i (x :: rest) -> i <= List.last (x :: rest) 0.
Proof.
  revert x i. induction rest as [|y rest IH]; intros x i Hs Hi.
  - destruct Hi as [<-|[]]. reflexivity.
  - inversion Hs as [|? ? Hs' Hall]; subst.
    change (List.last (x :: y :: rest) 0) with (List.last (y :: rest) 0).
    destruct Hi as [<-|Hi]; [|apply IH; assumption].
    inversion Hall as [|? ? Hxy _]; subst.
    specialize (IH y y Hs' (or_introl eq_refl)). lia.
Qed.

Lemma where_valid_head (col : list cell) lo rest :
  where_valid col = lo :: rest ->
  (exists x, col !! lo = Some (Some x)) /\
  (forall i x, col !! i = Some (Some x) -> lo <= i).
Proof.
  intros E. split.
  - apply where_valid_In. rewrite E. left. reflexivity.
  - intros i x Hi. assert (Hin : In i (where_valid col)) by (apply where_valid_In; eauto).
    pose proof (where_valid_sorted col) as Hs. rewrite E in Hs, Hin.
    inversion Hs as [|? ? _ Hall]; subst. destruct Hin as [<-|Hin]; [lia|].
    rewrite Forall_forall in Hall. apply list_elem_of_In in Hin.
    specialize (Hall _ Hin). lia.
Qed.

Lemma where_valid_last (col : list cell) lo rest :
  where_valid col = lo :: rest ->
  (exists x, col !! List.last (lo :: rest) 0 = Some (Some x)) /\
  (forall i x, col !! i = Some (Some x) -> i <= List.last (lo :: rest) 0).
Proof.
  intros E. split.
  - apply where_valid_In. rewrite E. apply last_in.
  - intros i x Hi. assert (Hin : In i (where_valid col)) by (apply where_valid_In; eauto).
    pose proof (where_valid_sorted col) as Hs. rewrite E in Hs, Hin.
    apply (sorted_le_last (lo :: rest)); assumption.
Qed.

Lemma length_fill_col (col : list cell) : length (fill_col col) = length col.
Proof.
  unfold fill_col. destruct (where_valid col); [reflexivity|]. apply length_imap.
Qed.

(** The fill pass never changes a cell that holds a value. *)
Lemma fill_col_keeps (col : list cell) i x :
  col !! i = Some (Some x) -> fill_col col !! i = Some (Some x).
Proof.
  intros Hi. unfold fill_col.
  destruct (where_valid col) as [|lo rest] eqn:E.
  - exact Hi.
  - destruct (where_valid_head col lo rest E) as [_ Hlo].
    destruct (where_valid_last col lo rest E) as [_ Hhi].
    specialize (Hlo i x Hi). specialize (Hhi i x Hi).
    remember (List.last (lo :: rest) 0) as hi eqn:Ehi. clear Ehi.
    rewrite list_lookup_imap, Hi. simpl.
    destruct (i <? lo) eqn:E1; [apply Nat.ltb_lt in E1; lia|].
    destruct (_ <? i) eqn:E2; [apply Nat.ltb_lt in E2; lia|]. reflexivity.
Qed.

(** A column without any value is left as it is. *)
Lemma fill_col_all_nan n : fill_col (replicate n None) = replicate n None.
Proof.
  unfold fill_col. destruct (where_valid (replicate n None)) as [|lo rest] eqn:E.
  - reflexivity.
  - destruct (where_valid_head _ lo rest E) as [[x Hx] _].
    apply lookup_replicate in Hx as [Hx _]. discriminate.
Qed.

Lemma final_column_keeps runs (col : list cell) i x :
  col !! i = Some (Some x) -> final_column runs col !! i = Some (Some x).
Proof.
  intros H. unfold final_column. destruct runs; [apply fill_col_keeps|]; exact H.
Qed.

Lemma get_of_column (a : array2) t i (c : cell) :
  column a t !! i = Some c -> get a i t = c.
Proof. intros H. rewrite <- column_lookup. unfold cell_at. rewrite H. reflexivity. Qed.

(** ** Claims about single cells *)

(** Claim C5.  At a time index with at least two valid readings, a
    depth-axis point that equals the depth of a valid reading gets that
    reading's value, unchanged (the shallowest and the deepest reading
    included), in the grid the engine returns. *)
Theorem exact_at_reading_depth vd dp T fill d0 t i depth dr v :
  distinct vd.*1 ->
  t < T ->
  2 <= length (readings vd t) ->
  dp !! i = Some depth ->
  In (dr, v) (readings vd t) ->
  (depth == dr)%Q ->
  exists a d', interpolate_variable vd dp T fill d0 = Ok (a, d') /\
               get a i t = Some v.
Proof.
  intros Hd Ht Hk Hi Hin Heq.
  destruct (interpolate_variable_returns vd dp T fill d0 ltac:(lia)) as (a & d' & E).
  exists a, d'. split; [exact E|].
  destruct (interpolate_variable_spec _ _ _ _ _ _ _ E) as (_ & _ & Hcol).
  apply (get_of_column a t i). rewrite (Hcol t Ht).
  apply final_column_keeps. rewrite column_of_readings_sorted by exact Hk.
  rewrite list_lookup_fmap, Hi. simpl. f_equal.
  pose proof (sorted_readings_strict _ (distinct_readings vd t Hd)) as Hs.
  apply sorted_readings_In, In_lookup in Hin as [j Ej].
  eapply interpolate_at_exact; eauto.
Qed.

(** Claim C4.  At a time index with at least two valid readings, a
    depth-axis point strictly between two neighbouring valid readings
    (d1, v1) and (d2, v2) gets (1-w)*v1 + w*v2 with
    w = (d - d1) / (d2 - d1), which is v1 + (v2 - v1) * (d - d1) / (d2 - d1). *)
Theorem linear_between_neighbours vd dp T fill d0 t i depth d1 v1 d2 v2 :
  distinct vd.*1 ->
  t < T ->
  2 <= length (readings vd t) ->
  dp !! i = Some depth ->
  In (d1, v1) (readings vd t) ->
  In (d2, v2) (readings vd t) ->
  (d1 < depth)%Q -> (depth < d2)%Q ->
  (forall d' v', In (d', v') (readings vd t) -> ~ ((d1 < d')%Q /\ (d' < d2)%Q)) ->
  exists a d' c,
    interpolate_variable vd dp T fill d0 = Ok (a, d') /\
    get a i t = Some c /\
    (c == v1 + (v2 - v1) * (depth - d1) / (d2 - d1))%Q /\
    (c == (1 - (depth - d1) / (d2 - d1)) * v1
          + (depth - d1) / (d2 - d1) * v2)%Q.
Proof.
  intros Hd Ht Hk Hi H1 H2 Hlo Hhi Hnone.
  destruct (interpolate_variable_returns vd dp T fill d0 ltac:(lia)) as (a & d' & E).
  exists a, d', (blend depth d1 d2 v1 v2). split; [exact E|].
  split; [|split; [apply blend_alt; lra|reflexivity]].
  destruct (interpolate_variable_spec _ _ _ _ _ _ _ E) as (_ & _ & Hcol).
  apply (get_of_column a t i). rewrite (Hcol t Ht).
  apply final_column_keeps. rewrite column_of_readings_sorted by exact Hk.
  rewrite list_lookup_fmap, Hi. simpl. f_equal.
  pose proof (distinct_readings vd t Hd) as Hdr.
  pose proof (sorted_readings_strict _ Hdr) as Hs.
  destruct (neighbours_adjacent _ d1 v1 d2 v2 Hdr H1 H2 ltac:(lra) Hnone)
    as (j & Ej & Ej').
  eapply interpolate_at_between; eauto.
Qed.

(** Claim C6.  The engine returns a grid (no error) and, for every time
    index t: with no valid reading at t every cell of column t is missing;
    with exactly one valid reading every cell of column t holds that
    reading's value. *)
Theorem degenerate_columns vd dp T fill d0 t :
  t < T ->
  exists a d',
    interpolate_variable vd dp T fill d0 = Ok (a, d') /\
    length a = length dp /\
    (length (readings vd t) = 0 ->
       forall i, i < length dp -> get a i t = None) /\
    (length (readings vd t) = 1 ->
       exists dr v, readings vd t = [(dr, v)] /\
                    forall i, i < length dp -> get a i t = Some v).
Proof.
  intros Ht.
  destruct (interpolate_variable_returns vd dp T fill d0 ltac:(lia)) as (a & d' & E).
  exists a, d'. split; [exact E|].
  destruct (interpolate_variable_spec _ _ _ _ _ _ _ E) as (Hlen & _ & Hcol).
  split; [exact Hlen|]. specialize (Hcol t Ht). split.
  - intros Hk i Hi. apply (get_of_column a t i). rewrite Hcol.
    unfold column_of_readings. rewrite Hk. simpl.
    unfold final_column. destruct (fill_pass_runs _ _ _).
    + rewrite fill_col_all_nan. apply lookup_replicate_2. exact Hi.
    + apply lookup_replicate_2. exact Hi.
  - intros Hk. destruct (readings vd t) as [|[dr v] [|p rs]] eqn:Er; try discriminate.
    exists dr, v. split; [reflexivity|]. intros i Hi.
    apply (get_of_column a t i). rewrite Hcol.
    apply final_column_keeps. unfold column_of_readings. simpl.
    apply lookup_replicate_2. exact Hi.
Qed.

(** ** Monotone readings give a monotone interpolant *)

Section MonotoneReadings.
Variable srs : list (Q * Q).
Hypothesis Hsorted : StronglySorted Qlt srs.*1.
Hypothesis Hvalues : forall i j di vi dj vj,
    i <= j -> srs !! i = Some (di, vi) -> srs !! j = Some (dj, vj) -> (vi <= vj)%Q.


End MonotoneReadings.

Lemma fill_col_lookup (col : list cell) lo rest i :
  where_valid col = lo :: rest -> i < length col ->
  fill_col col !! i =
  Some (if i <? lo then cell_at col lo
        else if List.last (lo :: rest) 0 <? i
             then cell_at col (List.last (lo :: rest) 0)
             else cell_at col i).
Proof.
  intros E Hi. unfold fill_col. rewrite E.
  remember (List.last (lo :: rest) 0) as hi eqn:Ehi. clear Ehi.
  rewrite list_lookup_imap.
  destruct (lookup_lt_is_Some_2 col i Hi) as [c Ec]. rewrite Ec. simpl.
  unfold cell_at. rewrite Ec. reflexivity.
Qed.


(** ** The depth axis *)

Lemma arange_lookup start stop step dp i x :
  arange start stop step = Ok dp -> dp !! i = Some x ->
  x = (start + inject_Z (Z.of_nat i) * step)%Q /\
  i < Z.to_nat (Qceiling ((stop - start) / step)).
Proof.
  unfold arange. destruct (Qeq_bool step 0); [discriminate|].
  intros H. injection H as <-. rewrite list_lookup_fmap. intros Hx.
  destruct (seq 0 _ !! i) as [k|] eqn:E; [|discriminate].
  apply lookup_seq in E as [-> Hi]. simpl in Hx. injection Hx as <-.
  split; [reflexivity|exact Hi].
Qed.

Lemma arange_length start stop step dp :
  arange start stop step = Ok dp ->
  length dp = Z.to_nat (Qceiling ((stop - start) / step)).
Proof.
  unfold arange. destruct (Qeq_bool step 0); [discriminate|].
  intros H. injection H as <-. rewrite length_fmap, length_seq. reflexivity.
Qed.

Lemma inject_Z_of_nat_le i j : i <= j -> (inject_Z (Z.of_nat i) <= inject_Z (Z.of_nat j))%Q.
Proof. intros H. rewrite <- Zle_Qle. lia. Qed.

Lemma arange_ascending start stop step dp :
  arange start stop step = Ok dp -> (0 < step)%Q -> ascending dp.
Proof.
  intros H Hs i j x y Hij Hi Hj.
  apply (arange_lookup _ _ _ _ _ _ H) in Hi as [-> _].
  apply (arange_lookup _ _ _ _ _ _ H) in Hj as [-> _].
  pose proof (inject_Z_of_nat_le i j Hij). nra.
Qed.

Lemma arange_descending start stop step dp :
  arange start stop step = Ok dp -> (step < 0)%Q ->
  forall i j x y, i <= j -> dp !! i = Some x -> dp !! j = Some y -> (y <= x)%Q.
Proof.
  intros H Hs i j x y Hij Hi Hj.
  apply (arange_lookup _ _ _ _ _ _ H) in Hi as [-> _].
  apply (arange_lookup _ _ _ _ _ _ H) in Hj as [-> _].
  pose proof (inject_Z_of_nat_le i j Hij). nra.
Qed.

(** ** Claim about monotone columns *)


Lemma get_Some_column (a : array2) t i x :
  get a i t = Some x -> column a t !! i = Some (Some x).
Proof.
  rewrite <- column_lookup. unfold cell_at.
  destruct (column a t !! i) as [c|]; [|discriminate]. intros ->. reflexivity.
Qed.


(** ** Binary64 and exact arithmetic *)




















(** ** Claim about the shape of a column *)

Lemma sorted_le_lookup l i j x y :
  StronglySorted Qle l -> i <= j -> l !! i = Some x -> l !! j = Some y -> (x <= y)%Q.
Proof.
  intros Hs. revert i j. induction Hs as [|z l Hs IH Hall]; intros i j Hij Hi Hj.
  - rewrite lookup_nil in Hi. discriminate.
  - destruct i as [|i]; destruct j as [|j]; simpl in Hi, Hj; try lia.
    + injection Hi as <-. injection Hj as <-. apply Qle_refl.
    + injection Hi as <-. rewrite Forall_forall in Hall.
      apply Hall. eapply list_elem_of_lookup_2. exact Hj.
    + apply (IH i j); [lia|assumption..].
Qed.

(** The range test of the program is the test "between two readings". *)
Lemma in_range_readings rs d :
  rs <> [] ->
  ((sorted_readings rs).*1 !!! 0%nat <= d)%Q /\ (d <= last_elem (sorted_readings rs).*1)%Q <->
  exists d1 v1 d2 v2, In (d1, v1) rs /\ In (d2, v2) rs /\ (d1 <= d)%Q /\ (d <= d2)%Q.
Proof.
  intros Hne. pose proof (sorted_readings_sorted rs) as Hs.
  pose proof (length_sorted_readings rs) as Hlen.
  assert (Hpos : 0 < length (sorted_readings rs)).
  { rewrite Hlen. destruct rs; [congruence|simpl; lia]. }
  destruct (lookup_lt_is_Some_2 _ _ Hpos) as [[df vf] Ef].
  assert (Hl : length (sorted_readings rs) - 1 < length (sorted_readings rs)) by lia.
  destruct (lookup_lt_is_Some_2 _ _ Hl) as [[dl vl] El].
  assert (Ff : (sorted_readings rs).*1 !!! 0 = df)
    by (apply (lookup_pair _ _ _ _ Ef)).
  assert (Fl : last_elem (sorted_readings rs).*1 = dl).
  { assert (Hn : (sorted_readings rs).*1 <> []).
    { intros E. apply (f_equal length) in E. rewrite length_fmap in E.
      simpl in E. lia. }
    pose proof (last_lookup_total _ Hn) as H. rewrite length_fmap in H.
    rewrite list_lookup_fmap, El in H. simpl in H. congruence. }
  rewrite Ff, Fl. split.
  - intros [H1 H2]. exists df, vf, dl, vl. split_and!; try assumption.
    + apply sorted_readings_In. eapply lookup_In. exact Ef.
    + apply sorted_readings_In. eapply lookup_In. exact El.
  - intros (d1 & v1 & d2 & v2 & I1 & I2 & H1 & H2).
    apply sorted_readings_In, In_lookup in I1 as [j1 E1].
    apply sorted_readings_In, In_lookup in I2 as [j2 E2].
    pose proof (lookup_lt_Some _ _ _ E2) as Hj2.
    split.
    + apply (Qle_trans _ d1); [|exact H1].
      apply (sorted_le_lookup _ 0 j1 _ _ Hs); [lia| |];
        rewrite list_lookup_fmap; [rewrite Ef|rewrite E1]; reflexivity.
    + apply (Qle_trans _ d2); [exact H2|].
      apply (sorted_le_lookup _ j2 (length (sorted_readings rs) - 1) _ _ Hs); [lia| |];
        rewrite list_lookup_fmap; [rewrite E2|rewrite El]; reflexivity.
Qed.

Lemma column_of_readings_valid dp rs i depth :
  2 <= length rs -> dp !! i = Some depth ->
  (exists z, column_of_readings dp rs !! i = Some (Some z)) <->
  exists d1 v1 d2 v2, In (d1, v1) rs /\ In (d2, v2) rs /\ (d1 <= depth)%Q /\ (depth <= d2)%Q.
Proof.
  intros Hk Hi. rewrite column_of_readings_sorted by exact Hk.
  rewrite list_lookup_fmap, Hi. simpl.
  rewrite <- in_range_readings by (destruct rs; [simpl in Hk; lia|discriminate]).
  rewrite <- in_range_iff.
  destruct (interpolate_at _ _ depth) as [z|] eqn:E.
  - split; [|eauto]. intros _.
    destruct (Qle_bool _ depth && Qle_bool depth _) eqn:Er; [reflexivity|].
    apply (interpolate_at_None _ (sorted_readings rs).*2) in Er. congruence.
  - apply interpolate_at_None in E. rewrite E. split; [|discriminate].
    intros [z Hz]. discriminate.
Qed.

Lemma arange_one_way start stop step dp :
  arange start stop step = Ok dp -> one_way dp.
Proof.
  intros H. assert (Hs : ~ (step == 0)%Q).
  { unfold arange in H. destruct (Qeq_bool step 0) eqn:E; [discriminate|].
    intros E'. apply Qeq_bool_iff in E'. congruence. }
  destruct (Q_dec step 0) as [[Hlt|Hgt]|Heq]; [| |contradiction].
  - right. eapply arange_descending; eauto.
  - left. eapply arange_ascending; eauto.
Qed.

Lemma column_of_readings_contiguous dp rs :
  one_way dp -> contiguous (column_of_readings dp rs).
Proof.
  intros Hdp i k j x y Hik Hkj Hi Hj.
  pose proof (lookup_lt_Some _ _ _ Hj) as Hjl.
  rewrite length_column_of_readings in Hjl.
  destruct (decide (2 <= length rs)) as [Hk|Hk].
  - destruct (lookup_lt_is_Some_2 dp i ltac:(lia)) as [di Ei].
    destruct (lookup_lt_is_Some_2 dp k ltac:(lia)) as [dk Ek].
    destruct (lookup_lt_is_Some_2 dp j ltac:(lia)) as [dj Ej].
    apply (column_of_readings_valid dp rs k dk Hk Ek).
    assert (Hvi : exists z, column_of_readings dp rs !! i = Some (Some z)) by eauto.
    assert (Hvj : exists z, column_of_readings dp rs !! j = Some (Some z)) by eauto.
    apply (column_of_readings_valid dp rs i di Hk Ei) in Hvi
      as (a1 & u1 & a2 & u2 & A1 & A2 & A3 & A4).
    apply (column_of_readings_valid dp rs j dj Hk Ej) in Hvj
      as (b1 & w1 & b2 & w2 & B1 & B2 & B3 & B4).
    destruct Hdp as [Hasc|Hdesc].
    + pose proof (Hasc i k _ _ ltac:(lia) Ei Ek).
      pose proof (Hasc k j _ _ ltac:(lia) Ek Ej).
      exists a1, u1, b2, w2. split_and!; try assumption; lra.
    + pose proof (Hdesc i k _ _ ltac:(lia) Ei Ek).
      pose proof (Hdesc k j _ _ ltac:(lia) Ek Ej).
      exists b1, w1, a2, u2. split_and!; try assumption; lra.
  - unfold column_of_readings in *.
    destruct (2 <=? length rs) eqn:E2; [apply Nat.leb_le in E2; lia|].
    destruct (length rs =? 1).
    + exists (rs.*2 !!! 0). apply lookup_replicate_2. lia.
    + apply lookup_replicate in Hi as [Hi _]. discriminate.
Qed.

(** The fill pass turns a contiguous column that holds a value somewhere
    into a column that holds a value everywhere. *)
Lemma fill_col_full (col : list cell) i0 x0 i :
  contiguous col -> col !! i0 = Some (Some x0) -> i < length col ->
  exists z, fill_col col !! i = Some (Some z).
Proof.
  intros Hc H0 Hi.
  destruct (where_valid col) as [|lo rest] eqn:E.
  { assert (Hin : In i0 (where_valid col)) by (apply where_valid_In; eauto).
    rewrite E in Hin. destruct Hin. }
  destruct (where_valid_head col lo rest E) as [[xlo Hlo] _].
  destruct (where_valid_last col lo rest E) as [[xhi Hhi] _].
  rewrite (fill_col_lookup col lo rest i E Hi).
  remember (List.last (lo :: rest) 0) as hi eqn:Ehi. clear Ehi.
  unfold cell_at. rewrite Hlo, Hhi.
  destruct (i <? lo) eqn:E1; [eauto|]. destruct (hi <? i) eqn:E2; [eauto|].
  apply Nat.ltb_ge in E1, E2.
  destruct (decide (i = lo)) as [->|N1]; [rewrite Hlo; eauto|].
  destruct (decide (i = hi)) as [->|N2]; [rewrite Hhi; eauto|].
  destruct (Hc lo i hi xlo xhi ltac:(lia) ltac:(lia) Hlo Hhi) as [z Hz].
  rewrite Hz. eauto.
Qed.

Lemma fill_col_contiguous (col : list cell) : contiguous col -> contiguous (fill_col col).
Proof.
  intros Hc i k j x y Hik Hkj Hi Hj.
  destruct (where_valid col) as [|lo rest] eqn:E.
  - unfold fill_col in *. rewrite E in *. eapply Hc; eauto.
  - destruct (where_valid_head col lo rest E) as [[xlo Hlo] _].
    apply (fill_col_full col lo xlo k Hc Hlo).
    pose proof (lookup_lt_Some _ _ _ Hj) as Hl. rewrite length_fill_col in Hl. lia.
Qed.

Lemma time_loop_column vd dp T d0 t :
  t < T ->
  column (time_loop vd dp T (full_nan (length dp) T) d0).1 t =
  column_of_readings dp (readings vd t).
Proof.
  intros Ht.
  pose proof (time_loop_spec T vd dp T (full_nan (length dp) T) d0
                (full_nan_rows _ _) (le_n _) (length_full_nan _ _)
                (column_full_nan _ _)) as (_ & _ & L3 & _).
  apply L3. exact Ht.
Qed.

Lemma isnan_false (c : cell) : isnan c = false <-> exists z, c = Some z.
Proof. destruct c; simpl; split; eauto; try discriminate. intros [z Hz]; discriminate. Qed.

Lemma get_valid (a : array2) t i :
  isnan (get a i t) = false <-> exists z, column a t !! i = Some (Some z).
Proof.
  rewrite isnan_false, <- column_lookup. unfold cell_at.
  destruct (column a t !! i) as [c|]; split; intros [z Hz]; try discriminate.
  - subst c. eauto.
  - injection Hz as ->. eauto.
Qed.

(** Claim C10.  In every column of a grid built over a depth axis that
    [arange] yields, the cells that hold a value form one run of depth
    indices.  Before the fill pass: no cell with no valid reading, every
    cell with one, and with two or more exactly the axis points between
    two reading depths (that is, within the shallowest and the deepest).
    When the fill pass runs on a column that holds a value somewhere, the
    run becomes the whole column.  In the returned grid a missing cell
    never lies strictly between two cells that hold a value. *)
Theorem valid_cells_contiguous vd start stop step dp T fill d0 t :
  arange start stop step = Ok dp ->
  t < T ->
  exists a d',
    interpolate_variable vd dp T fill d0 = Ok (a, d') /\
    let before := (time_loop vd dp T (full_nan (length dp) T) d0).1 in
    (length (readings vd t) = 0 ->
       forall i, i < length dp -> isnan (get before i t) = true) /\
    (length (readings vd t) = 1 ->
       forall i, i < length dp -> isnan (get before i t) = false) /\
    (2 <= length (readings vd t) ->
       forall i depth, dp !! i = Some depth ->
         (isnan (get before i t) = false <->
          exists d1 v1 d2 v2,
            In (d1, v1) (readings vd t) /\ In (d2, v2) (readings vd t) /\
            (d1 <= depth)%Q /\ (depth <= d2)%Q)) /\
    (fill_pass_runs fill vd T = true ->
       (exists i, isnan (get before i t) = false) ->
       forall i, i < length dp -> isnan (get a i t) = false) /\
    (fill_pass_runs fill vd T = false ->
       forall i, get a i t = get before i t) /\
    (forall i k j, i < k -> k < j ->
       isnan (get a i t) = false -> isnan (get a j t) = false ->
       isnan (get a k t) = false).
Proof.
  intros Hdp Ht.
  destruct (interpolate_variable_returns vd dp T fill d0 ltac:(lia)) as (a & d' & E).
  exists a, d'. split; [exact E|].
  destruct (interpolate_variable_spec _ _ _ _ _ _ _ E) as (_ & _ & Hcol).
  specialize (Hcol t Ht).
  pose proof (time_loop_column vd dp T d0 t Ht) as Hbefore.
  pose proof (column_of_readings_contiguous dp (readings vd t)
                (arange_one_way _ _ _ _ Hdp)) as Hc.
  cbv zeta. set (before := (time_loop vd dp T (full_nan (length dp) T) d0).1) in *.
  split_and!.
  - intros Hk i Hi. rewrite <- column_lookup, Hbefore.
    unfold column_of_readings. rewrite Hk. simpl.
    unfold cell_at. rewrite lookup_replicate_2 by exact Hi. reflexivity.
  - intros Hk i Hi. rewrite <- column_lookup, Hbefore.
    unfold column_of_readings. rewrite Hk. simpl.
    unfold cell_at. rewrite lookup_replicate_2 by exact Hi. reflexivity.
  - intros Hk i depth Hi. rewrite get_valid, Hbefore.
    apply column_of_readings_valid; assumption.
  - intros Hruns [i0 H0] i Hi. apply get_valid in H0 as [x0 H0].
    rewrite Hbefore in H0. apply get_valid. rewrite Hcol, Hruns. simpl.
    apply (fill_col_full _ i0 x0); [exact Hc|exact H0|].
    rewrite length_column_of_readings. exact Hi.
  - intros Hruns i. rewrite <- !column_lookup, Hcol, Hbefore, Hruns. reflexivity.
  - intros i k j Hik Hkj Hi Hj. apply get_valid in Hi as [x Hi].
    apply get_valid in Hj as [y Hj]. apply get_valid.
    rewrite Hcol in *. unfold final_column in *.
    destruct (fill_pass_runs fill vd T).
    + eapply (fill_col_contiguous _ Hc); eauto.
    + eapply Hc; eauto.
Qed.

(** ** The fill pass and the local [depths] *)

(** When the last time index has a valid reading, the fill pass runs, and
    then it treats every column on its own: above the first cell with a
    value that cell's value, below the last cell with a value that cell's
    value, the cells between them as they were. *)
Lemma fill_pass_when_it_runs vd dp T d0 t lo rest :
  t < T ->
  readings vd (T - 1) <> [] ->
  where_valid (column (time_loop vd dp T (full_nan (length dp) T) d0).1 t) = lo :: rest ->
  exists a d',
    interpolate_variable vd dp T true d0 = Ok (a, d') /\
    let before := (time_loop vd dp T (full_nan (length dp) T) d0).1 in
    let hi := List.last (lo :: rest) 0 in
    forall i, i < length dp ->
      get a i t = if i <? lo then get before lo t
                  else if hi <? i then get before hi t
                  else get before i t.
Proof.
  intros Ht Hlast Hvalid.
  destruct (interpolate_variable_returns vd dp T true d0 ltac:(lia)) as (a & d' & E).
  exists a, d'. split; [exact E|].
  destruct (interpolate_variable_spec _ _ _ _ _ _ _ E) as (_ & _ & Hcol).
  specialize (Hcol t Ht).
  pose proof (time_loop_column vd dp T d0 t Ht) as Hbefore.
  cbv zeta. intros i Hi.
  assert (Hruns : fill_pass_runs true vd T = true).
  { unfold fill_pass_runs. simpl. destruct (readings vd (T - 1)); [congruence|reflexivity]. }
  rewrite Hruns in Hcol. simpl in Hcol. rewrite <- Hbefore in Hcol.
  rewrite <- !column_lookup. rewrite Hcol.
  unfold cell_at at 1.
  rewrite (fill_col_lookup _ lo rest i Hvalid)
    by (rewrite Hbefore, length_column_of_readings; exact Hi).
  reflexivity.
Qed.

(** Claim C2, evaluated.  With the fill option on, the first time column
    of [stale_depths_input] holds values at depth indices 1 and 2, yet the
    cells at indices 0 and 3 of that column stay missing: the last time
    column has no valid reading, the local [depths] is empty when the
    test [fill_values and depths] is made, and the fill pass is skipped
    for every column. *)
Theorem fill_pass_skipped_after_empty_last_column :
  fill_values stale_depths_input = true /\
  exists g,
    interpolated_arrays (perform_interpolation stale_depths_input) = [("temp"%string, g)] /\
    depths g = [0%Q; 1%Q; 2%Q; 3%Q] /\
    column (data g) 0 = [None; Some 10%Q; Some 20%Q; None] /\
    column (data g) 1 = [None; None; None; None] /\
    messagebox (perform_interpolation stale_depths_input) = [].
Proof.
  split; [reflexivity|]. eexists. split; [vm_compute; reflexivity|].
  vm_compute. repeat split; reflexivity.
Qed.

(** ** The length of the depth axis *)

Lemma Qceiling_above (x : Q) : (inject_Z (Qceiling x) < x + 1)%Q.
Proof.
  pose proof (Qceiling_lt x) as H. unfold Z.sub in H.
  rewrite inject_Z_plus, inject_Z_opp in H. change (inject_Z 1) with 1%Q in H. lra.
Qed.

Lemma Qfloor_below (x : Q) : (x < inject_Z (Qfloor x) + 1)%Q.
Proof.
  pose proof (Qlt_floor x) as H. rewrite inject_Z_plus in H. exact H.
Qed.

Lemma Qceiling_plus_1 (x : Q) : Qceiling (x + 1) = (Qceiling x + 1)%Z.
Proof.
  pose proof (Qle_ceiling x) as H1. pose proof (Qceiling_above x) as H2.
  pose proof (Qle_ceiling (x + 1)) as H3. pose proof (Qceiling_above (x + 1)) as H4.
  assert (A : (inject_Z (Qceiling x) < inject_Z (Qceiling (x + 1)))%Q) by lra.
  assert (B : (inject_Z (Qceiling (x + 1)) < inject_Z (Qceiling x + 2))%Q).
  { rewrite inject_Z_plus. change (inject_Z 2) with 2%Q. lra. }
  rewrite <- Zlt_Qlt in A, B. lia.
Qed.

Lemma Qceiling_floor_integer (x : Q) (k : Z) :
  (x == inject_Z k)%Q -> Qfloor x = k /\ Qceiling x = k.
Proof.
  intros H. rewrite H. split; [apply Qfloor_Z|apply Qceiling_Z].
Qed.

Lemma Qceiling_floor_fraction (x : Q) :
  (forall k : Z, ~ (x == inject_Z k)%Q) -> Qceiling x = (Qfloor x + 1)%Z.
Proof.
  intros Hn.
  pose proof (Qfloor_le x) as H1. pose proof (Qfloor_below x) as H2.
  pose proof (Qle_ceiling x) as H3. pose proof (Qceiling_above x) as H4.
  assert (A : (inject_Z (Qfloor x) < inject_Z (Qceiling x))%Q).
  { apply Qle_lteq in H3. destruct H3 as [H3|H3]; [lra|].
    exfalso. apply (Hn (Qceiling x)). exact H3. }
  assert (B : (inject_Z (Qceiling x) < inject_Z (Qfloor x + 2))%Q).
  { rewrite inject_Z_plus. change (inject_Z 2) with 2%Q. lra. }
  rewrite <- Zlt_Qlt in A, B. lia.
Qed.

Lemma axis_length_ceiling (max_depth res : Q) :
  (0 < res)%Q ->
  Qceiling ((max_depth + res - 0) / res) = (Qceiling (max_depth / res) + 1)%Z.
Proof.
  intros H. rewrite <- Qceiling_plus_1. apply Qceiling_comp. field. lra.
Qed.

(** A list of [ceil((M + R) / R)] numbers, the i-th of which is [i * R]:
    when [M] is a whole multiple of [R] it has [floor(M / R) + 1]
    elements and ends exactly at [M]; otherwise it has
    [floor(M / R) + 2] elements, of which the last one, and only that
    one, lies beyond [M]. *)
Lemma regular_axis_length {A} (val : A -> Q) (M R : Q) (dp : list A) :
  (0 < R)%Q -> (0 <= M)%Q ->
  length dp = Z.to_nat (Qceiling ((M + R - 0) / R)) ->
  (forall i x, dp !! i = Some x -> (val x == inject_Z (Z.of_nat i) * R)%Q) ->
  let n := Z.to_nat (Qfloor (M / R)) in
  ((exists k : Z, (M == inject_Z k * R)%Q) ->
     length dp = n + 1 /\
     (forall x, dp !! n = Some x -> (val x == M)%Q) /\
     (forall i x, dp !! i = Some x -> (val x <= M)%Q)) /\
  (~ (exists k : Z, (M == inject_Z k * R)%Q) ->
     length dp = n + 2 /\
     (forall i x, dp !! i = Some x -> ((M < val x)%Q <-> i = n + 1))).
Proof.
  intros Hres Hmax Hlen Hpt.
  rewrite axis_length_ceiling in Hlen by exact Hres.
  assert (Hq : (0 <= M / R)%Q).
  { apply Qle_shift_div_l; [exact Hres|]. lra. }
  assert (Hfl : (0 <= Qfloor (M / R))%Z).
  { change 0%Z with (Qfloor 0). apply Qfloor_resp_le. exact Hq. }
  pose proof (Qfloor_le (M / R)) as Hf1.
  pose proof (Qfloor_below (M / R)) as Hf2.
  assert (Hmul : (M / R * R == M)%Q) by (field; lra).
  set (q := (M / R)%Q) in *.
  cbv zeta. split.
  - intros [k Hk].
    assert (Hqk : (q == inject_Z k)%Q).
    { unfold q. rewrite Hk. field. lra. }
    destruct (Qceiling_floor_integer q k Hqk) as [Ef Ec].
    rewrite Ec in Hlen. rewrite Ef in *.
    split_and!.
    + lia.
    + intros x Hx. rewrite (Hpt _ _ Hx), Z2Nat.id by lia. rewrite Hk. reflexivity.
    + intros i x Hi. pose proof (lookup_lt_Some _ _ _ Hi) as Hil.
      rewrite (Hpt _ _ Hi), Hk.
      assert ((inject_Z (Z.of_nat i) <= inject_Z k)%Q) by (rewrite <- Zle_Qle; lia).
      nra.
  - intros Hnk.
    assert (Hfrac : forall k : Z, ~ (q == inject_Z k)%Q).
    { intros k Hk. apply Hnk. exists k. rewrite <- Hk. symmetry. exact Hmul. }
    rewrite (Qceiling_floor_fraction q Hfrac) in Hlen.
    split; [lia|]. intros i x Hi. pose proof (lookup_lt_Some _ _ _ Hi) as Hil.
    rewrite (Hpt _ _ Hi).
    assert (Hfq : (inject_Z (Qfloor q) < q)%Q).
    { apply Qle_lteq in Hf1. destruct Hf1 as [H|H]; [exact H|].
      exfalso. apply (Hfrac (Qfloor q)). symmetry. exact H. }
    split.
    + intros Hgt. destruct (decide (i = Z.to_nat (Qfloor q) + 1)); [assumption|].
      exfalso.
      assert ((inject_Z (Z.of_nat i) <= inject_Z (Qfloor q))%Q)
        by (rewrite <- Zle_Qle; lia).
      nra.
    + intros ->.
      replace (Z.of_nat (Z.to_nat (Qfloor q) + 1)) with (Qfloor q + 1)%Z by lia.
      rewrite inject_Z_plus. change (inject_Z 1) with 1%Q. nra.
Qed.

(** The same of the exact reading of [np.arange]. *)
Lemma arange_exact_axis (max_depth res : Q) :
  (0 < res)%Q -> (0 <= max_depth)%Q ->
  exists dp,
    arange 0 (max_depth + res) res = Ok dp /\
    (forall i x, dp !! i = Some x -> (x == inject_Z (Z.of_nat i) * res)%Q) /\
    let n := Z.to_nat (Qfloor (max_depth / res)) in
    ((exists k : Z, (max_depth == inject_Z k * res)%Q) ->
       length dp = n + 1 /\
       (forall x, dp !! n = Some x -> (x == max_depth)%Q) /\
       (forall i x, dp !! i = Some x -> (x <= max_depth)%Q)) /\
    (~ (exists k : Z, (max_depth == inject_Z k * res)%Q) ->
       length dp = n + 2 /\
       (forall i x, dp !! i = Some x -> ((max_depth < x)%Q <-> i = n + 1))).
Proof.
  intros Hres Hmax.
  destruct (arange 0 (max_depth + res) res) as [dp|e] eqn:E.
  2:{ unfold arange in E. destruct (Qeq_bool res 0) eqn:E0; [|discriminate].
      apply Qeq_bool_iff in E0. lra. }
  exists dp. split; [reflexivity|].
  assert (Hpt : forall i x, dp !! i = Some x -> (x == inject_Z (Z.of_nat i) * res)%Q).
  { intros i x Hi. apply (arange_lookup _ _ _ _ _ _ E) in Hi as [-> _]. ring. }
  split; [exact Hpt|].
  apply (regular_axis_length (fun x => x) max_depth res dp Hres Hmax);
    [apply (arange_length _ _ _ _ E)|exact Hpt].
Qed.




(** [np.arange] also raises when the sum of maximum depth and
    resolution overflows. *)
Lemma arange_binary64_overflow :
  arange_binary64 0 (1e308 + 1e308) 1e308 = Raise ValueError.
Proof. vm_compute. reflexivity. Qed.

(** ** The common time index *)

Lemma Index_unique_from_elem seen idx t :
  t ∈ Index_unique_from seen idx <-> t ∈ idx /\ t ∉ seen.
Proof.
  revert seen. induction idx as [|u idx IH]; intros seen; simpl.
  - split; [intros H; inversion H|intros [H _]; inversion H].
  - case_bool_decide as Hs.
    + rewrite IH. rewrite elem_of_cons. split.
      * intros [H1 H2]. auto.
      * intros [[->|H1] H2]; [contradiction|auto].
    + rewrite !elem_of_cons, IH, elem_of_cons. split.
      * intros [->|[H1 H2]]; [auto|]. split; [auto|]. intros H. apply H2. auto.
      * intros [[->|H1] H2]; [auto|].
        destruct (decide (t = u)) as [->|Hne]; [auto|].
        right. split; [exact H1|]. intros [?|?]; contradiction.
Qed.

Lemma Index_intersection_elem a b t :
  In t (Index_intersection a b) <-> In t a /\ In t b.
Proof.
  unfold Index_intersection, Index_unique, Index_contains.
  rewrite filter_In, bool_decide_eq_true, <- !list_elem_of_In.
  rewrite Index_unique_from_elem. split.
  - intros [[H _] H']. auto.
  - intros [H H']. split; [split; [exact H|]|exact H']. intros Hn. inversion Hn.
Qed.

Lemma Index_unique_from_Forall (P : Z -> Prop) seen idx :
  Forall P idx -> Forall P (Index_unique_from seen idx).
Proof.
  revert seen. induction idx as [|u idx IH]; intros seen H; simpl; [constructor|].
  inversion H; subst. case_bool_decide; [apply IH; assumption|].
  constructor; [assumption|apply IH; assumption].
Qed.

Lemma Index_unique_from_sorted seen idx :
  StronglySorted Z.lt idx -> StronglySorted Z.lt (Index_unique_from seen idx).
Proof.
  revert seen. induction idx as [|u idx IH]; intros seen H; simpl; [constructor|].
  inversion H as [|? ? Hs Hall]; subst. case_bool_decide; [apply IH; exact Hs|].
  constructor; [apply IH; exact Hs|]. apply Index_unique_from_Forall. exact Hall.
Qed.

Lemma filter_sorted (f : Z -> bool) l :
  StronglySorted Z.lt l -> StronglySorted Z.lt (List.filter f l).
Proof.
  induction 1 as [|u l Hs IH Hall]; simpl; [constructor|].
  destruct (f u); [|exact IH]. constructor; [exact IH|].
  rewrite Forall_forall in *. intros x Hx. apply Hall.
  apply list_elem_of_In in Hx. apply filter_In in Hx as [Hx _].
  apply list_elem_of_In. exact Hx.
Qed.

Lemma Index_intersection_sorted a b :
  StronglySorted Z.lt a -> StronglySorted Z.lt (Index_intersection a b).
Proof.
  intros H. unfold Index_intersection, Index_unique.
  apply filter_sorted, Index_unique_from_sorted. exact H.
Qed.

Lemma intersection_all_elem first rest t :
  In t (foldl Index_intersection first rest) <->
  forall idx, In idx (first :: rest) -> In t idx.
Proof.
  revert first. induction rest as [|r rest IH]; intros first; simpl.
  - split; [intros H idx [<-|[]]; exact H|intros H; apply H; auto].
  - rewrite IH. split.
    + intros H idx [<-|[<-|Hi]].
      * apply (Index_intersection_elem first r t), H. left. reflexivity.
      * apply (Index_intersection_elem first r t), H. left. reflexivity.
      * apply H. right. exact Hi.
    + intros H idx [<-|Hi].
      * apply Index_intersection_elem. split; apply H; auto.
      * apply H. auto.
Qed.

Lemma intersection_all_sorted first rest :
  StronglySorted Z.lt first -> StronglySorted Z.lt (foldl Index_intersection first rest).
Proof.
  revert first. induction rest as [|r rest IH]; intros first H; simpl; [exact H|].
  apply IH, Index_intersection_sorted, H.
Qed.

Lemma all_equal_iff first rest :
  forallb (fun idx => Index_equals idx first) (first :: rest) = true <->
  forall idx, In idx rest -> idx = first.
Proof.
  rewrite forallb_forall. unfold Index_equals. split.
  - intros H idx Hi. eapply bool_decide_eq_true_1, H. right. exact Hi.
  - intros H idx Hi. apply bool_decide_eq_true_2. destruct Hi as [<-|Hi]; [reflexivity|].
    apply H. exact Hi.
Qed.

(** Claim C3.  From time axes that are each strictly increasing: when all
    axes are the same sequence the common axis is that sequence; otherwise
    it is the intersection of all axes (the timestamps present in every
    axis, ascending); when that intersection is empty it is the first
    axis, with one warning and no error.  The axis returned is strictly
    increasing, hence without duplicates. *)
Theorem common_time_axis first rest :
  Forall (StronglySorted Z.lt) (first :: rest) ->
  let intersection := foldl Index_intersection first rest in
  ((forall idx, In idx rest -> idx = first) ->
     common_time_index first rest = (first, [])) /\
  (~ (forall idx, In idx rest -> idx = first) -> intersection <> [] ->
     common_time_index first rest = (intersection, [])) /\
  (~ (forall idx, In idx rest -> idx = first) -> intersection = [] ->
     exists text,
       common_time_index first rest = (first, [showwarning "No Common Times" text])) /\
  (forall t, In t intersection <-> forall idx, In idx (first :: rest) -> In t idx) /\
  StronglySorted Z.lt intersection /\
  StronglySorted Z.lt (common_time_index first rest).1 /\
  NoDup (common_time_index first rest).1.
Proof.
  intros Hall. inversion Hall as [|? ? Hfirst Hrest]; subst.
  pose proof (intersection_all_sorted first rest Hfirst) as Hint.
  cbv zeta.
  assert (Hres : StronglySorted Z.lt (common_time_index first rest).1).
  { unfold common_time_index. destruct (forallb _ _); [exact Hfirst|].
    destruct (length _ =? 0); [exact Hfirst|exact Hint]. }
  split_and!.
  - intros H. unfold common_time_index.
    apply (proj2 (all_equal_iff first rest)) in H. rewrite H. reflexivity.
  - intros H Hne. unfold common_time_index.
    destruct (forallb _ (first :: rest)) eqn:E; [exfalso; apply H; apply (proj1 (all_equal_iff first rest)); exact E|].
    destruct (foldl Index_intersection first rest) as [|x l]; [congruence|reflexivity].
  - intros H He. unfold common_time_index.
    destruct (forallb _ (first :: rest)) eqn:E; [exfalso; apply H; apply (proj1 (all_equal_iff first rest)); exact E|].
    rewrite He. simpl. eauto.
  - apply intersection_all_elem.
  - exact Hint.
  - exact Hres.
  - clear -Hres. induction Hres as [|x l Hs IH Hx]; constructor; [|exact IH].
    intros Hin. rewrite Forall_forall in Hx. specialize (Hx x Hin). lia.
Qed.

(** ** The engine as a whole *)

Lemma interpolate_variables_inputs variables time_index depth_points depths self :
  inputs (interpolate_variables variables time_index depth_points depths self).1
  = inputs self.
Proof.
  revert depths self. induction variables as [|var variables IH]; intros depths self.
  - reflexivity.
  - simpl. destruct (extract_var_data _ _ _ _) as [[|p vd]|e]; [| |reflexivity].
    + rewrite IH. reflexivity.
    + destruct (interpolate_variable _ _ _ _ _) as [[a d']|e]; [|reflexivity].
      rewrite IH. reflexivity.
Qed.

(** The grids a run of the loop leaves behind depend on the registry, the
    fill option and the grids stored before, and on nothing else of the
    application object. *)
Lemma interpolate_variables_grids variables time_index depth_points depths s1 s2 :
  depth_arrays s1 = depth_arrays s2 ->
  fill_values s1 = fill_values s2 ->
  interpolated_arrays s1 = interpolated_arrays s2 ->
  interpolated_arrays (interpolate_variables variables time_index depth_points depths s1).1
  = interpolated_arrays (interpolate_variables variables time_index depth_points depths s2).1
  /\ (interpolate_variables variables time_index depth_points depths s1).2
     = (interpolate_variables variables time_index depth_points depths s2).2.
Proof.
  revert depths s1 s2.
  induction variables as [|var variables IH]; intros depths s1 s2 Hd Hf Hg.
  - simpl. split; [exact Hg|reflexivity].
  - simpl. rewrite <- Hd, <- Hf.
    destruct (extract_var_data _ _ _ _) as [[|p vd]|e]; [| |split; [exact Hg|reflexivity]].
    + apply IH; assumption.
    + destruct (interpolate_variable _ _ _ _ _) as [[a d']|e];
        [|split; [exact Hg|reflexivity]].
      apply IH; simpl; try assumption. rewrite Hg. reflexivity.
Qed.

Lemma interpolation_body_inputs self :
  inputs (interpolation_body self).1 = inputs self.
Proof.
  unfold interpolation_body.
  destruct (variables_to_interpolate self) as [|v vs] eqn:Ev; [reflexivity|].
  change (depth_arrays (set_interpolated_arrays [] self)) with (depth_arrays self).
  destruct (_ <$> depth_arrays self) as [|first rest]; [reflexivity|].
  destruct (common_time_index first rest) as [time_index warnings].
  destruct (arange _ _ _) as [dp|e]; [|reflexivity].
  pose proof (interpolate_variables_inputs (v :: vs) time_index dp None
                (show warnings (set_interpolated_arrays [] self))) as H.
  destruct (interpolate_variables _ _ _ _ _) as [self' [u|e]]; simpl in H.
  - unfold update_visualization_variables.
    destruct ((interpolated_arrays self').*1); exact H.
  - exact H.
Qed.

Lemma perform_interpolation_inputs self :
  inputs (perform_interpolation self) = inputs self.
Proof.
  unfold perform_interpolation. destruct (depth_arrays self) eqn:E; [reflexivity|].
  pose proof (interpolation_body_inputs self) as H.
  destruct (interpolation_body self) as [self' [u|e]]; exact H.
Qed.

Lemma variables_to_interpolate_inputs s1 s2 :
  inputs s1 = inputs s2 -> variables_to_interpolate s1 = variables_to_interpolate s2.
Proof.
  unfold inputs, variables_to_interpolate. intros H. injection H as _ _ _ _ ->.
  reflexivity.
Qed.

Lemma interpolation_body_grids s1 s2 :
  inputs s1 = inputs s2 -> variables_to_interpolate s1 <> [] ->
  interpolated_arrays (interpolation_body s1).1 = interpolated_arrays (interpolation_body s2).1
  /\ (interpolation_body s1).2 = (interpolation_body s2).2.
Proof.
  intros Hin Hv. pose proof (variables_to_interpolate_inputs s1 s2 Hin) as Hvs.
  unfold inputs in Hin. injection Hin as Hd Hr Hm Hf Hc.
  unfold interpolation_body. rewrite <- Hvs, <- Hr, <- Hm.
  destruct (variables_to_interpolate s1) as [|v vs]; [congruence|].
  change (depth_arrays (set_interpolated_arrays [] s1)) with (depth_arrays s1).
  change (depth_arrays (set_interpolated_arrays [] s2)) with (depth_arrays s2).
  rewrite <- Hd.
  destruct (_ <$> depth_arrays s1) as [|first rest]; [split; reflexivity|].
  destruct (common_time_index first rest) as [time_index warnings].
  destruct (arange _ _ _) as [dp|e]; [|split; reflexivity].
  destruct (interpolate_variables_grids (v :: vs) time_index dp None
              (show warnings (set_interpolated_arrays [] s1))
              (show warnings (set_interpolated_arrays [] s2)) Hd Hf eq_refl)
    as [Hg Hres].
  destruct (interpolate_variables (v :: vs) time_index dp None
              (show warnings (set_interpolated_arrays [] s1))) as [s1' r1].
  destruct (interpolate_variables (v :: vs) time_index dp None
              (show warnings (set_interpolated_arrays [] s2))) as [s2' r2].
  simpl in Hg, Hres. subst r2. destruct r1 as [u|e]; [|split; [exact Hg|reflexivity]].
  split; [|reflexivity]. unfold update_visualization_variables. rewrite <- Hg.
  destruct ((interpolated_arrays s1').*1); exact Hg.
Qed.

Lemma perform_interpolation_grids s1 s2 :
  inputs s1 = inputs s2 ->
  depth_arrays s1 <> [] -> variables_to_interpolate s1 <> [] ->
  interpolated_arrays (perform_interpolation s1)
  = interpolated_arrays (perform_interpolation s2).
Proof.
  intros Hin Hd Hv. destruct (interpolation_body_grids s1 s2 Hin Hv) as [Hg Hr].
  unfold perform_interpolation.
  assert (Hd2 : depth_arrays s2 = depth_arrays s1).
  { unfold inputs in Hin. injection Hin as -> _ _ _ _. reflexivity. }
  rewrite Hd2. destruct (depth_arrays s1); [congruence|].
  destruct (interpolation_body s1) as [s1' r1].
  destruct (interpolation_body s2) as [s2' r2]. simpl in Hg, Hr. subst r2.
  destruct r1; exact Hg.
Qed.

(** A second run on the object the first run left finds the same grids. *)
Lemma perform_interpolation_again self :
  interpolated_arrays (perform_interpolation (perform_interpolation self))
  = interpolated_arrays (perform_interpolation self).
Proof.
  pose proof (perform_interpolation_inputs self) as Hin.
  destruct (depth_arrays self) as [|p regs] eqn:Ed.
  - assert (E : perform_interpolation self
                = show [showwarning "No Data" "Please process data first."] self).
    { unfold perform_interpolation. rewrite Ed. reflexivity. }
    rewrite E. unfold perform_interpolation at 1. simpl. rewrite Ed. reflexivity.
  - destruct (variables_to_interpolate self) as [|v vs] eqn:Ev.
    + assert (E : perform_interpolation self
                  = show [showwarning "No Variables"
                            "Please select at least one variable to interpolate."] self).
      { unfold perform_interpolation, interpolation_body. rewrite Ed, Ev. reflexivity. }
      rewrite E. unfold perform_interpolation at 1, interpolation_body.
      simpl. rewrite Ed.
      change (variables_to_interpolate (show _ self)) with (variables_to_interpolate self).
      rewrite Ev. reflexivity.
    + symmetry. apply perform_interpolation_grids.
      * symmetry. exact Hin.
      * congruence.
      * congruence.
Qed.

(** Claim C9.  Two application objects that agree on the registry, the
    configuration and the ticked variables (at least one sensor, at least
    one variable) are left with the same grids, cell for cell, depth axis
    and time axis included, whatever else the objects held before; and a
    second run after the first leaves the same grids again. *)
Theorem deterministic_grids s1 s2 :
  inputs s1 = inputs s2 ->
  depth_arrays s1 <> [] ->
  variables_to_interpolate s1 <> [] ->
  interpolated_arrays (perform_interpolation s1)
  = interpolated_arrays (perform_interpolation s2) /\
  interpolated_arrays (perform_interpolation (perform_interpolation s1))
  = interpolated_arrays (perform_interpolation s1).
Proof.
  intros Hin Hd Hv. split.
  - apply perform_interpolation_grids; assumption.
  - apply perform_interpolation_again.
Qed.

(** ** Every stored grid comes from the variable loop *)

Lemma dict_set_In {V} (d : list (string * V)) key value k v :
  In (k, v) (dict_set d key value) -> In (k, v) d \/ (k = key /\ v = value).
Proof.
  induction d as [|[k0 v0] d IH]; simpl.
  - intros [H|[]]. injection H as <- <-. right. split; reflexivity.
  - destruct (String.eqb k0 key) eqn:E.
    + apply String.eqb_eq in E. subst k0.
      intros [H|H]; [injection H as <- <-; right; split; reflexivity|left; right; exact H].
    + intros [H|H]; [left; left; exact H|].
      destruct (IH H) as [H'|H']; [left; right; exact H'|right; exact H'].
Qed.

(** Whatever holds of the grids stored before the loop and of every grid
    the loop computes holds of every grid stored after it. *)
Lemma interpolate_variables_stored (P : string -> InterpolatedGrid -> Prop)
    variables time_index depth_points dl self :
  (forall var g, In (var, g) (interpolated_arrays self) -> P var g) ->
  (forall var vd d0 a d',
      extract_var_data var time_index (depth_arrays self) [] = Ok vd ->
      interpolate_variable vd depth_points (length time_index) (fill_values self) d0
      = Ok (a, d') ->
      P var (mkGrid a depth_points time_index)) ->
  forall var g,
    In (var, g) (interpolated_arrays
                   (interpolate_variables variables time_index depth_points dl self).1) ->
    P var g.
Proof.
  revert dl self. induction variables as [|v variables IH]; intros dl self Hold Hnew.
  - exact Hold.
  - simpl. destruct (extract_var_data _ _ _ _) as [[|p vd]|e] eqn:Ev; [| |exact Hold].
    + apply IH; [exact Hold|exact Hnew].
    + destruct (interpolate_variable _ _ _ _ _) as [[a d']|e] eqn:Ei; [|exact Hold].
      apply IH; [|exact Hnew]. simpl. intros var g Hin.
      apply dict_set_In in Hin as [Hin|[-> ->]]; [apply Hold; exact Hin|].
      eapply Hnew; eauto.
Qed.


(** Every grid a run stores is the array [interpolate_variable] returns
    for the series of that variable aligned on the common time index,
    over the depth axis of the configuration. *)
Lemma stored_grid_is_interpolate_variable self first rest var g :
  (fun '(_, df) => index df) <$> depth_arrays self = first :: rest ->
  variables_to_interpolate self <> [] ->
  In (var, g) (interpolated_arrays (perform_interpolation self)) ->
  exists depth_points vd d0 d',
    arange 0 (max_depth self + depth_resolution self) (depth_resolution self)
    = Ok depth_points /\
    extract_var_data var (common_time_index first rest).1 (depth_arrays self) [] = Ok vd /\
    interpolate_variable vd depth_points (length (common_time_index first rest).1)
      (fill_values self) d0 = Ok (data g, d') /\
    depths g = depth_points /\
    times g = (common_time_index first rest).1.
Proof.
  intros Hidx Hv. unfold perform_interpolation, interpolation_body.
  destruct (depth_arrays self) as [|[depth df] regs] eqn:Ed; [discriminate|].
  destruct (variables_to_interpolate self) as [|v vs] eqn:Ev; [congruence|].
  change (depth_arrays (set_interpolated_arrays [] self)) with (depth_arrays self).
  rewrite Ed, Hidx.
  destruct (common_time_index first rest) as [time_index warnings]. simpl fst.
  destruct (arange _ _ _) as [dp|e] eqn:Edp; [|intros []].
  pose proof (interpolate_variables_stored
                (fun var g => exists vd d0 d',
                     extract_var_data var time_index ((depth, df) :: regs) [] = Ok vd /\
                     interpolate_variable vd dp (length time_index) (fill_values self) d0
                     = Ok (data g, d') /\
                     depths g = dp /\ times g = time_index)
                (v :: vs) time_index dp None
                (show warnings (set_interpolated_arrays [] self))) as Hinv.
  change (interpolated_arrays (show warnings (set_interpolated_arrays [] self)))
    with (@nil (string * InterpolatedGrid)) in Hinv at 1.
  change (depth_arrays (show warnings (set_interpolated_arrays [] self)))
    with (depth_arrays self) in Hinv.
  change (fill_values (show warnings (set_interpolated_arrays [] self)))
    with (fill_values self) in Hinv.
  rewrite Ed in Hinv.
  specialize (Hinv ltac:(intros ? ? [])).
  specialize (Hinv ltac:(intros; do 3 eexists; split_and!; eauto)).
  destruct (interpolate_variables _ _ _ _ _) as [self' [u|e]]; cbn [fst snd] in *.
  - intros Hin. unfold update_visualization_variables in Hin.
    assert (Hin' : In (var, g) (interpolated_arrays self'))
      by (destruct ((interpolated_arrays self').*1); exact Hin).
    destruct (Hinv var g Hin') as (vd & d0 & d' & H1 & H2 & H3 & H4).
    exists dp, vd, d0, d'. split_and!; auto.
  - intros Hin. destruct (Hinv var g Hin) as (vd & d0 & d' & H1 & H2 & H3 & H4).
    exists dp, vd, d0, d'. split_and!; auto.
Qed.


(** ** The depth keys of [var_data] *)

Lemma distinct_app_inv l1 x l2 :
  distinct (l1 ++ x :: l2) ->
  distinct (l1 ++ l2) /\ Forall (fun k => ~ (k == x)%Q) l1.
Proof.
  induction l1 as [|y l1 IH]; simpl.
  - intros [_ H]. split; [exact H|constructor].
  - intros [Hy H]. destruct (IH H) as [H1 H2].
    apply Forall_app in Hy as [Hy1 Hy2]. inversion Hy2 as [|? ? Hyx Hy2']; subst.
    split; [split; [apply Forall_app; split; assumption|exact H1]|].
    constructor; [exact Hyx|exact H2].
Qed.

Lemma dict_set_depth_fresh {V} (d : list (Q * V)) key (value : V) :
  Forall (fun k => ~ (k == key)%Q) d.*1 ->
  dict_set_depth d key value = d ++ [(key, value)].
Proof.
  induction d as [|[k v] d IH]; simpl; intros H; [reflexivity|].
  inversion H as [|? ? Hk H']; subst.
  destruct (Qeq_bool k key) eqn:E; [apply Qeq_bool_iff in E; contradiction|].
  rewrite IH by exact H'. reflexivity.
Qed.

Lemma extract_var_data_keys var time_index items acc vd :
  extract_var_data var time_index items acc = Ok vd ->
  distinct (acc.*1 ++ items.*1) -> distinct vd.*1.
Proof.
  revert acc. induction items as [|[depth df] items IH]; intros acc; simpl.
  - intros H. injection H as <-. rewrite app_nil_r. trivial.
  - intros H Hd. destruct (distinct_app_inv _ _ _ Hd) as [Hd' Hfresh].
    destruct (has_column var df).
    + destruct (align df time_index var) as [values|e]; [|discriminate].
      rewrite dict_set_depth_fresh in H by exact Hfresh.
      apply (IH _ H). rewrite fmap_app. simpl. rewrite <- app_assoc. exact Hd.
    + apply (IH _ H). exact Hd'.
Qed.

(** A registry keyed by pairwise distinct depths gives [var_data] keyed
    by pairwise distinct depths. *)
Lemma extract_var_data_distinct var time_index items vd :
  distinct items.*1 ->
  extract_var_data var time_index items [] = Ok vd -> distinct vd.*1.
Proof.
  intros Hd H. apply (extract_var_data_keys _ _ _ _ _ H). exact Hd.
Qed.

(** ** The claims at concrete inputs *)

Lemma two_readings_distinct : distinct two_readings.*1.
Proof. simpl. repeat split; repeat constructor. discriminate. Defined.

Lemma exact_at_reading_depth_witness :
  exists a d',
    interpolate_variable two_readings axis_0_to_5 1 true None = Ok (a, d') /\
    get a 5 0 = Some 6%Q.
Proof.
  apply (exact_at_reading_depth two_readings axis_0_to_5 1 true None 0 5 5%Q 5%Q 6%Q).
  - exact two_readings_distinct.
  - lia.
  - simpl. lia.
  - reflexivity.
  - simpl. right. left. reflexivity.
  - reflexivity.
Defined.

Lemma linear_between_neighbours_witness :
  exists a d' c,
    interpolate_variable two_readings axis_0_to_5 1 true None = Ok (a, d') /\
    get a 3 0 = Some c /\
    (c == 2 + (6 - 2) * (3 - 1) / (5 - 1))%Q /\
    (c == (1 - (3 - 1) / (5 - 1)) * 2 + (3 - 1) / (5 - 1) * 6)%Q.
Proof.
  apply (linear_between_neighbours two_readings axis_0_to_5 1 true None 0 3
           3%Q 1%Q 2%Q 5%Q 6%Q).
  - exact two_readings_distinct.
  - lia.
  - simpl. lia.
  - reflexivity.
  - simpl. left. reflexivity.
  - simpl. right. left. reflexivity.
  - reflexivity.
  - reflexivity.
  - simpl. intros d' v' [H|[H|[]]]; injection H as <- <-; intros [A B];
      vm_compute in A, B; discriminate.
Defined.

Lemma degenerate_columns_witness :
  exists a d',
    interpolate_variable one_reading axis_0_to_5 2 true None = Ok (a, d') /\
    length a = length axis_0_to_5 /\
    (forall i, i < length axis_0_to_5 -> get a i 0 = Some 2%Q) /\
    (forall i, i < length axis_0_to_5 -> get a i 1 = None).
Proof.
  destruct (degenerate_columns one_reading axis_0_to_5 2 true None 0 ltac:(lia))
    as (a & d' & E & Hlen & _ & H1).
  destruct (degenerate_columns one_reading axis_0_to_5 2 true None 1 ltac:(lia))
    as (a' & d'' & E' & _ & H0 & _).
  exists a, d'. split_and!; [exact E|exact Hlen| |].
  - destruct (H1 eq_refl) as (dr & v & Er & Hv).
    vm_compute in Er. injection Er as <- <-. exact Hv.
  - rewrite E in E'. injection E' as <- <-. apply H0. reflexivity.
Defined.


Lemma valid_cells_contiguous_witness :
  exists a d',
    interpolate_variable two_readings axis_0_to_5 1 false None = Ok (a, d') /\
    forall i k j, i < k -> k < j ->
      isnan (get a i 0) = false -> isnan (get a j 0) = false ->
      isnan (get a k 0) = false.
Proof.
  destruct (valid_cells_contiguous two_readings 0%Q 6%Q 1%Q axis_0_to_5 1 false None 0
              eq_refl ltac:(lia)) as (a & d' & E & _ & _ & _ & _ & _ & H).
  exists a, d'. split; [exact E|exact H].
Defined.


Lemma common_time_axis_witness :
  Forall (StronglySorted Z.lt) [[1; 2; 3]; [2; 3; 4]]%Z /\
  common_time_index [1; 2; 3]%Z [[2; 3; 4]%Z] = ([2; 3]%Z, []).
Proof.
  assert (H : Forall (StronglySorted Z.lt) [[1; 2; 3]; [2; 3; 4]]%Z)
    by (repeat constructor).
  split; [exact H|].
  destruct (common_time_axis [1; 2; 3]%Z [[2; 3; 4]%Z] H) as (_ & H2 & _).
  apply H2.
  - intros Hall. specialize (Hall [2; 3; 4]%Z (or_introl eq_refl)). discriminate.
  - vm_compute. discriminate.
Defined.

Lemma deterministic_grids_witness :
  interpolated_arrays (perform_interpolation stale_depths_input)
  = interpolated_arrays (perform_interpolation stale_depths_input_later) /\
  interpolated_arrays (perform_interpolation (perform_interpolation stale_depths_input))
  = interpolated_arrays (perform_interpolation stale_depths_input).
Proof.
  apply (deterministic_grids stale_depths_input stale_depths_input_later).
  - reflexivity.
  - discriminate.
  - discriminate.
Defined.

(** ** The keys of a dict keyed by depth stay distinct *)

Lemma dict_set_depth_keys {V} (d : list (Q * V)) key (value : V) :
  (dict_set_depth d key value).*1 = d.*1 \/
  ((dict_set_depth d key value).*1 = d.*1 ++ [key] /\
   Forall (fun k => ~ (k == key)%Q) d.*1).
Proof.
  induction d as [|[k v] d IH].
  - right. split; [reflexivity|constructor].
  - cbn [dict_set_depth]. destruct (Qeq_bool k key) eqn:E; [left; reflexivity|].
    rewrite !fmap_cons. cbn [fst].
    destruct IH as [IH|[IH Hf]]; rewrite IH.
    + left. reflexivity.
    + right. split; [reflexivity|].
      constructor; [|exact Hf]. intros H. apply Qeq_bool_iff in H. congruence.
Qed.

Lemma distinct_snoc l x :
  distinct l -> Forall (fun k => ~ (k == x)%Q) l -> distinct (l ++ [x]).
Proof.
  induction l as [|y l IH]; simpl; intros Hd Hf.
  - split; [constructor|exact I].
  - destruct Hd as [Hy Hd]. inversion Hf as [|? ? Hyx Hf']; subst.
    split; [|apply IH; assumption].
    apply Forall_app. split; [exact Hy|]. constructor; [exact Hyx|constructor].
Qed.

Lemma dict_set_depth_distinct {V} (d : list (Q * V)) key (value : V) :
  distinct d.*1 -> distinct (dict_set_depth d key value).*1.
Proof.
  intros Hd. destruct (dict_set_depth_keys d key value) as [E|[E Hf]]; rewrite E.
  - exact Hd.
  - apply distinct_snoc; assumption.
Qed.

Lemma dict_set_depth_has_key {V} (d : list (Q * V)) key (value : V) :
  exists k, In k (dict_set_depth d key value).*1 /\ (k == key)%Q.
Proof.
  induction d as [|[k v] d IH]; simpl.
  - exists key. split; [left; reflexivity|reflexivity].
  - destruct (Qeq_bool k key) eqn:E.
    + exists k. split; [left; reflexivity|]. apply Qeq_bool_iff. exact E.
    + destruct IH as (k' & Hin & Hk). exists k'. split; [right; exact Hin|exact Hk].
Qed.

Lemma dict_set_depth_old_keys {V} (d : list (Q * V)) key (value : V) k :
  In k d.*1 -> In k (dict_set_depth d key value).*1.
Proof.
  destruct (dict_set_depth_keys d key value) as [E|[E _]]; rewrite E; [auto|].
  intros H. apply in_or_app. left. exact H.
Qed.

Lemma dict_set_depth_new_keys {V} (d : list (Q * V)) key (value : V) k :
  In k (dict_set_depth d key value).*1 -> In k d.*1 \/ k = key.
Proof.
  destruct (dict_set_depth_keys d key value) as [E|[E _]]; rewrite E; [auto|].
  intros H. apply in_app_or in H as [H|[H|[]]]; auto.
Qed.

Lemma extract_var_data_invariant var time_index items acc vd :
  extract_var_data var time_index items acc = Ok vd ->
  (distinct acc.*1 -> distinct vd.*1) /\
  (forall k, In k vd.*1 ->
     In k acc.*1 \/ exists df, In (k, df) items /\ has_column var df = true) /\
  (forall k, In k acc.*1 -> In k vd.*1) /\
  (forall k df, In (k, df) items -> has_column var df = true ->
     exists k', In k' vd.*1 /\ (k' == k)%Q).
Proof.
  revert acc. induction items as [|[depth df] items IH]; intros acc; simpl.
  - intros H. injection H as <-. split_and!; auto. intros k df [].
  - destruct (has_column var df) eqn:Ec.
    + destruct (align df time_index var) as [values|e]; [|discriminate].
      intros H. destruct (IH _ H) as (I1 & I2 & I3 & I4). split_and!.
      * intros Hd. apply I1, dict_set_depth_distinct, Hd.
      * intros k Hk. destruct (I2 k Hk) as [Hacc|(df' & Hin & Hc)].
        -- apply dict_set_depth_new_keys in Hacc as [Hacc| ->]; [left; exact Hacc|].
           right. exists df. split; [left; reflexivity|exact Ec].
        -- right. exists df'. split; [right; exact Hin|exact Hc].
      * intros k Hk. apply I3, dict_set_depth_old_keys, Hk.
      * intros k df' [Heq|Hin] Hc.
        -- injection Heq as <- <-.
           destruct (dict_set_depth_has_key acc depth values) as (k' & Hin' & Hk').
           exists k'. split; [apply I3; exact Hin'|exact Hk'].
        -- apply (I4 k df' Hin Hc).
    + intros H. destruct (IH _ H) as (I1 & I2 & I3 & I4). split_and!; auto.
      * intros k Hk. destruct (I2 k Hk) as [Hacc|(df' & Hin & Hc)]; [left; exact Hacc|].
        right. exists df'. split; [right; exact Hin|exact Hc].
      * intros k df' [Heq|Hin] Hc; [injection Heq as <- <-; congruence|].
        apply (I4 k df' Hin Hc).
Qed.

(** [var_data] as lines 866-875 build it is keyed by pairwise distinct
    depths, whatever the registry; its keys are depths of sensors whose
    frame has the variable, and every such sensor is in it under a depth
    equal to its own. *)
Theorem var_data_keys var time_index items vd :
  extract_var_data var time_index items [] = Ok vd ->
  distinct vd.*1 /\
  (forall k, In k vd.*1 -> exists df, In (k, df) items /\ has_column var df = true) /\
  (forall k df, In (k, df) items -> has_column var df = true ->
     exists k', In k' vd.*1 /\ (k' == k)%Q).
Proof.
  intros H. destruct (extract_var_data_invariant _ _ _ _ _ H) as (I1 & I2 & _ & I4).
  split_and!.
  - apply I1. exact I.
  - intros k Hk. destruct (I2 k Hk) as [[]|Hex]. exact Hex.
  - exact I4.
Qed.

(** ** Alignment on the common time index *)

Lemma rows_at_absent t idx vals : ~ In t idx -> rows_at t idx vals = [].
Proof.
  revert vals. induction idx as [|u idx IH]; intros vals H; [reflexivity|].
  destruct vals as [|v vals]; [reflexivity|]. simpl.
  destruct (Z.eqb u t) eqn:E.
  - apply Z.eqb_eq in E. exfalso. apply H. left. exact E.
  - apply IH. intros Hin. apply H. right. exact Hin.
Qed.

Lemma rows_at_unique t idx vals j :
  NoDup idx -> length vals = length idx -> idx !! j = Some t ->
  exists v, vals !! j = Some v /\ rows_at t idx vals = [v].
Proof.
  revert vals j. induction idx as [|u idx IH]; intros vals j Hnd Hlen Hj.
  - rewrite lookup_nil in Hj. discriminate.
  - destruct vals as [|v vals]; [discriminate|]. simpl in Hlen.
    apply NoDup_cons in Hnd as [Hu Hnd]. simpl.
    destruct j as [|j]; simpl in Hj.
    + injection Hj as ->. rewrite Z.eqb_refl. exists v. split; [reflexivity|].
      rewrite rows_at_absent; [reflexivity|].
      intros Hin. apply Hu. apply list_elem_of_In. exact Hin.
    + destruct (Z.eqb u t) eqn:E.
      * apply Z.eqb_eq in E. subst u. exfalso. apply Hu.
        eapply list_elem_of_lookup_2. exact Hj.
      * apply (IH vals j Hnd); [lia|exact Hj].
Qed.

Lemma loc_values_present df labels var :
  NoDup (index df) ->
  length (get_column var (columns df)) = length (index df) ->
  (forall t, In t labels -> In t (index df)) ->
  loc_values df labels var = value_at df var <$> labels.
Proof.
  intros Hnd Hlen. unfold loc_values.
  induction labels as [|t labels IH]; intros Hall; [reflexivity|].
  simpl. rewrite IH by (intros u Hu; apply Hall; right; exact Hu).
  destruct (In_lookup t (index df) (Hall t (or_introl eq_refl))) as [j Hj].
  destruct (rows_at_unique t _ _ j Hnd Hlen Hj) as (v & _ & Hv).
  unfold value_at. rewrite Hv. reflexivity.
Qed.

Lemma align_value_at df time_index var :
  NoDup (index df) ->
  length (get_column var (columns df)) = length (index df) ->
  align df time_index var = Ok (value_at df var <$> time_index).
Proof.
  intros Hnd Hlen. unfold align.
  destruct (forallb (Index_contains (index df)) time_index) eqn:E.
  - rewrite loc_values_present; [reflexivity|exact Hnd|exact Hlen|].
    intros t Ht. rewrite forallb_forall in E. specialize (E t Ht).
    unfold Index_contains in E. apply bool_decide_eq_true_1 in E.
    apply list_elem_of_In. exact E.
  - unfold reindex_values, Index_is_unique.
    rewrite bool_decide_eq_true_2 by exact Hnd. reflexivity.
Qed.

(** The alignment of lines 870-875, for a frame whose index has no
    duplicate label and whose column is as long as its index: it returns
    (no exception) one value per timestamp of the common time index, the
    value the sensor has at that timestamp, and NaN where the sensor has
    no row for it. *)
Theorem align_one_value_per_timestamp df time_index var :
  NoDup (index df) ->
  length (get_column var (columns df)) = length (index df) ->
  exists values,
    align df time_index var = Ok values /\
    length values = length time_index /\
    forall i t, time_index !! i = Some t ->
      (forall j, index df !! j = Some t ->
         values !! i = Some (cell_at (get_column var (columns df)) j)) /\
      (~ In t (index df) -> values !! i = Some None).
Proof.
  intros Hnd Hlen. exists (value_at df var <$> time_index).
  split; [apply align_value_at; assumption|].
  split; [apply length_fmap|].
  intros i t Hi. rewrite list_lookup_fmap, Hi. simpl. unfold value_at. split.
  - intros j Hj. destruct (rows_at_unique t _ _ j Hnd Hlen Hj) as (v & Hv & Hr).
    rewrite Hr. unfold cell_at. rewrite Hv. reflexivity.
  - intros Hn. rewrite rows_at_absent by exact Hn. reflexivity.
Qed.

(** ** Runs that complete *)










(** ** The configuration is not validated *)





(** ** What a run stores *)

Lemma update_visualization_variables_grids self :
  interpolated_arrays (update_visualization_variables self) = interpolated_arrays self.
Proof.
  unfold update_visualization_variables.
  destruct ((interpolated_arrays self).*1); reflexivity.
Qed.

Lemma interpolate_variables_new_keys variables time_index depth_points dl self var :
  In var (interpolated_arrays
            (interpolate_variables variables time_index depth_points dl self).1).*1 ->
  In var (interpolated_arrays self).*1 \/
  (In var variables /\
   exists p vd, extract_var_data var time_index (depth_arrays self) [] = Ok (p :: vd)).
Proof.
  revert dl self. induction variables as [|v variables IH]; intros dl self.
  - simpl. auto.
  - simpl. destruct (extract_var_data _ _ _ _) as [[|p vd]|e] eqn:Ev; [| |auto].
    + intros H. destruct (IH _ _ H) as [H'|[H1 H2]]; [left; exact H'|].
      right. split; [right; exact H1|exact H2].
    + destruct (interpolate_variable _ _ _ _ _) as [[a d']|e]; [|auto].
      intros H. destruct (IH _ _ H) as [H'|[H1 H2]].
      * simpl in H'. apply list_elem_of_In, list_elem_of_fmap in H' as [[k g] [-> Hin]].
        apply list_elem_of_In, dict_set_In in Hin as [Hin|[-> _]].
        -- left. apply list_elem_of_In, list_elem_of_fmap. exists (k, g).
           split; [reflexivity|apply list_elem_of_In; exact Hin].
        -- right. split; [left; reflexivity|eauto].
      * right. split; [right; exact H1|exact H2].
Qed.

(** A run that gets past its early returns stores grids only under ticked
    variables that at least one sensor's frame has: a variable absent from
    every sensor gets no grid. *)
Theorem stored_variables_are_present self var :
  depth_arrays self <> [] ->
  variables_to_interpolate self <> [] ->
  In var (interpolated_arrays (perform_interpolation self)).*1 ->
  In var (variables_to_interpolate self) /\
  exists depth df, In (depth, df) (depth_arrays self) /\ has_column var df = true.
Proof.
  intros Hd Hv. unfold perform_interpolation, interpolation_body.
  destruct (depth_arrays self) as [|[depth df] regs] eqn:Ed; [congruence|].
  destruct (variables_to_interpolate self) as [|v vs] eqn:Ev; [congruence|].
  change (depth_arrays (set_interpolated_arrays [] self)) with (depth_arrays self).
  rewrite Ed. cbn [fmap list_fmap].
  destruct (common_time_index _ _) as [time_index warnings].
  destruct (arange _ _ _) as [dp|e]; [|intros []].
  pose proof (interpolate_variables_new_keys (v :: vs) time_index dp None
                (show warnings (set_interpolated_arrays [] self)) var) as Hk.
  change (depth_arrays (show warnings (set_interpolated_arrays [] self)))
    with (depth_arrays self) in Hk. rewrite Ed in Hk.
  remember (interpolate_variables (v :: vs) time_index dp None
              (show warnings (set_interpolated_arrays [] self))) as r eqn:Er.
  clear Er.
  assert (Hend : In var (interpolated_arrays r.1).*1 ->
                 In var (v :: vs) /\
                 exists depth0 df0, In (depth0, df0) ((depth, df) :: regs) /\
                                    has_column var df0 = true).
  { intros H. destruct (Hk H) as [[]|[H1 (p & vd & H2)]]. split; [exact H1|].
    destruct (extract_var_data_invariant _ _ _ _ _ H2) as (_ & K & _).
    destruct (K p.1 (or_introl eq_refl)) as [[]|(df0 & Hin & Hc)]. eauto. }
  clear Hk. destruct r as [self' [u|e]]; cbn [fst snd] in *.
  - intros H. apply Hend.
    change (In var (interpolated_arrays (update_visualization_variables self')).*1) in H.
    rewrite update_visualization_variables_grids in H. exact H.
  - exact Hend.
Qed.

(** Every grid a run stores has one row per point of its depth axis and,
    in every row, one cell per timestamp of its time axis. *)
Theorem stored_grid_shape self var g :
  depth_arrays self <> [] ->
  variables_to_interpolate self <> [] ->
  In (var, g) (interpolated_arrays (perform_interpolation self)) ->
  length (data g) = length (depths g) /\
  Forall (fun row : list cell => length row = length (times g)) (data g).
Proof.
  intros Hd Hv Hin.
  destruct ((fun '(_, df) => index df) <$> depth_arrays self) as [|first rest] eqn:E.
  { destruct (depth_arrays self); [congruence|discriminate]. }
  destruct (stored_grid_is_interpolate_variable self first rest var g E Hv Hin)
    as (dp & vd & d0 & d' & _ & _ & Hi & -> & ->).
  destruct (interpolate_variable_spec _ _ _ _ _ _ _ Hi) as (H1 & H2 & _).
  split; assumption.
Qed.

(** ** An empty time index *)





(** ** The fill pass on its own *)

Lemma fill_col_source (col : list cell) i x :
  fill_col col !! i = Some (Some x) -> exists j, col !! j = Some (Some x).
Proof.
  intros H. destruct (where_valid col) as [|lo rest] eqn:E.
  - unfold fill_col in H. rewrite E in H. eauto.
  - destruct (where_valid_head col lo rest E) as [[xlo Hlo] _].
    destruct (where_valid_last col lo rest E) as [[xhi Hhi] _].
    rewrite (fill_col_lookup col lo rest i E) in H
      by (rewrite <- (length_fill_col col); eapply lookup_lt_Some; eauto).
    remember (List.last (lo :: rest) 0) as hi eqn:Ehi. clear Ehi.
    unfold cell_at in H. rewrite Hlo, Hhi in H.
    destruct (i <? lo); [injection H as <-; eauto|].
    destruct (hi <? i); [injection H as <-; eauto|].
    destruct (col !! i) as [c|] eqn:Ec; [|discriminate].
    injection H as ->. eauto.
Qed.

Lemma fill_col_ends (col : list cell) lo rest :
  where_valid col = lo :: rest ->
  (exists x, fill_col col !! 0 = Some (Some x)) /\
  (exists y, fill_col col !! (length col - 1) = Some (Some y)).
Proof.
  intros E.
  destruct (where_valid_head col lo rest E) as [[xlo Hlo] _].
  destruct (where_valid_last col lo rest E) as [[xhi Hhi] _].
  pose proof (where_valid_first_le_last lo rest col E) as Hle.
  pose proof (lookup_lt_Some _ _ _ Hlo) as Hl.
  pose proof (lookup_lt_Some _ _ _ Hhi) as Hh.
  rewrite !(fill_col_lookup col lo rest _ E) by lia.
  remember (List.last (lo :: rest) 0) as hi eqn:Ehi. clear Ehi.
  unfold cell_at. rewrite Hlo, Hhi. split.
  - destruct (0 <? lo) eqn:E1; [eauto|]. apply Nat.ltb_ge in E1.
    assert (lo = 0) by lia. subst lo.
    destruct (hi <? 0) eqn:E2; [eauto|]. rewrite Hlo. eauto.
  - destruct (length col - 1 <? lo) eqn:E1; [eauto|].
    destruct (hi <? length col - 1) eqn:E2; [eauto|].
    apply Nat.ltb_ge in E2. assert (hi = length col - 1) by lia. subst hi.
    rewrite Hhi. eauto.
Qed.

Lemma fill_col_idempotent (col : list cell) : fill_col (fill_col col) = fill_col col.
Proof.
  destruct (where_valid col) as [|lo rest] eqn:E.
  { unfold fill_col at 2. rewrite E. unfold fill_col. rewrite E. reflexivity. }
  destruct (fill_col_ends col lo rest E) as [[x Hx] [y Hy]].
  destruct (where_valid (fill_col col)) as [|lo' rest'] eqn:E'.
  { unfold fill_col at 1. rewrite E'. reflexivity. }
  destruct (where_valid_head _ lo' rest' E') as [_ Hlo'].
  destruct (where_valid_last _ lo' rest' E') as [_ Hhi'].
  specialize (Hlo' 0 x Hx). specialize (Hhi' _ y Hy).
  apply list_eq. intros i.
  destruct (decide (i < length (fill_col col))) as [Hi|Hi].
  - rewrite (fill_col_lookup _ lo' rest' i E' Hi).
    remember (List.last (lo' :: rest') 0) as hi' eqn:Ehi. clear Ehi.
    rewrite length_fill_col in Hi.
    destruct (i <? lo') eqn:E1; [apply Nat.ltb_lt in E1; lia|].
    destruct (hi' <? i) eqn:E2; [apply Nat.ltb_lt in E2; lia|].
    unfold cell_at. destruct (fill_col col !! i) as [c|] eqn:Ec; [reflexivity|].
    apply lookup_ge_None in Ec. rewrite length_fill_col in Ec. lia.
  - rewrite !lookup_ge_None_2; [reflexivity|lia|rewrite length_fill_col; lia].
Qed.

(** The fill of one time column (lines 932-942) on an array whose rows
    have [m] cells keeps the shape of the array, leaves every other column
    as it is, never changes a cell that holds a value, and done a second
    time changes nothing. *)
Theorem fill_column_frame m a t :
  rows_of_length m a -> t < m ->
  length (fill_column a t) = length a /\
  rows_of_length m (fill_column a t) /\
  (forall t', t <> t' -> column (fill_column a t) t' = column a t') /\
  (forall d t' x, get a d t' = Some x -> get (fill_column a t) d t' = Some x) /\
  (forall t', column (fill_column (fill_column a t) t) t' = column (fill_column a t) t').
Proof.
  intros Hrows Ht.
  destruct (fill_column_spec m a t Hrows Ht) as (F1 & F2 & F3 & F4).
  destruct (fill_column_spec m (fill_column a t) t F3 Ht) as (G1 & G2 & _ & _).
  split_and!; try assumption.
  - intros d t' x Hx. apply get_Some_column in Hx. apply (get_of_column _ t' d).
    destruct (decide (t = t')) as [<-|Hne].
    + rewrite F1. apply fill_col_keeps. exact Hx.
    + rewrite F2 by exact Hne. exact Hx.
  - intros t'. destruct (decide (t = t')) as [<-|Hne].
    + rewrite G1, F1. apply fill_col_idempotent.
    + apply G2. exact Hne.
Qed.

(** ** Saving edited depths *)

Lemma length_dict_set_depth {V} (d : list (Q * V)) key (value : V) :
  length (dict_set_depth d key value) <= S (length d).
Proof.
  induction d as [|[k v] d IH]; simpl; [lia|].
  destruct (Qeq_bool k key); simpl; lia.
Qed.

Lemma save_depths_loop_keys entries regs acc new :
  save_depths_loop entries regs acc = Some new ->
  distinct acc.*1 ->
  distinct new.*1 /\ length new <= length acc + length entries.
Proof.
  revert acc. induction entries as [|[old_depth new_depth] entries IH]; intros acc; simpl.
  - intros H Hd. injection H as <-. split; [exact Hd|lia].
  - destruct (dict_get_depth regs old_depth) as [df|]; [|discriminate].
    intros H Hd.
    destruct (IH _ H (dict_set_depth_distinct acc new_depth df Hd)) as [I1 I2].
    split; [exact I1|].
    pose proof (length_dict_set_depth acc new_depth df). lia.
Qed.

Lemma save_depths_loop_fresh entries regs acc dfs :
  Forall2 (fun (e : Q * Q) df => dict_get_depth regs e.1 = Some df) entries dfs ->
  distinct (acc.*1 ++ entries.*2) ->
  save_depths_loop entries regs acc = Some (acc ++ zip entries.*2 dfs).
Proof.
  intros H. revert acc.
  induction H as [|[old_depth new_depth] df entries dfs Hget H IH]; intros acc Hd.
  - simpl. rewrite app_nil_r. reflexivity.
  - simpl in *. rewrite Hget.
    destruct (distinct_app_inv _ _ _ Hd) as [_ Hfresh].
    rewrite dict_set_depth_fresh by exact Hfresh.
    rewrite IH.
    + rewrite <- app_assoc. reflexivity.
    + rewrite fmap_app, <- app_assoc. exact Hd.
Qed.

(** What [save_depths] assigns is always a dict keyed by pairwise distinct
    depths, with at most one entry per sensor; when the numbers in the
    entry fields differ pairwise every sensor keeps its frame, under its
    new depth and in the order of the entries. *)
Theorem save_depths_keeps_sensors entries regs dfs :
  Forall2 (fun (e : Q * Q) df => dict_get_depth regs e.1 = Some df) entries dfs ->
  exists new,
    save_depths entries regs = Some new /\
    distinct new.*1 /\
    length new <= length entries /\
    (distinct entries.*2 -> new = zip entries.*2 dfs).
Proof.
  intros H. unfold save_depths.
  assert (Hsome : exists new, save_depths_loop entries regs [] = Some new).
  { generalize (@nil (Q * DataFrame)) as acc.
    induction H as [|[old_depth new_depth] df es dfs' Hget _ IH]; intros acc; simpl.
    - eauto.
    - simpl in Hget. rewrite Hget. apply IH. }
  destruct Hsome as [new E]. exists new. split; [exact E|].
  destruct (save_depths_loop_keys _ _ _ _ E I) as [H1 H2].
  split_and!; [exact H1|simpl in H2; lia|].
  intros Hd. rewrite (save_depths_loop_fresh entries regs [] dfs H) in E by exact Hd.
  injection E as <-. reflexivity.
Qed.

Lemma argsort_bound (a : list Q) : Forall (fun i => i < length a) (argsort a).
Proof.
  rewrite (argsort_perm a). apply Forall_forall. intros i Hi.
  apply list_elem_of_In, in_seq in Hi. lia.
Qed.

Lemma gather_items {V} (d : list (Q * V)) : omap (fun i => d !! i) (seq 0 (length d)) = d.
Proof.
  induction d as [|p d IH] using rev_ind; [reflexivity|].
  rewrite length_app, Nat.add_1_r, seq_S, omap_app. simpl.
  rewrite lookup_app_r, Nat.sub_diag by lia. simpl. f_equal.
  rewrite <- IH at 2. apply list_omap_ext. apply Forall2_same_length_lookup_2; [reflexivity|].
  intros i x y Hx Hy. rewrite Hx in Hy. injection Hy as <-.
  apply lookup_seq in Hx as [-> Hi]. simpl. apply lookup_app_l. exact Hi.
Qed.

Lemma sorted_items_perm {V} (d : list (Q * V)) : Permutation (sorted_items d) d.
Proof.
  unfold sorted_items. rewrite (argsort_perm d.*1), length_fmap. rewrite gather_items.
  reflexivity.
Qed.

Lemma sorted_items_keys {V} (d : list (Q * V)) :
  (sorted_items d).*1 = take_indices d.*1 (argsort d.*1).
Proof.
  unfold sorted_items, take_indices.
  pose proof (argsort_bound d.*1) as Hb. rewrite length_fmap in Hb.
  induction Hb as [|i l Hi Hb IH]; [reflexivity|].
  destruct (lookup_lt_is_Some_2 d i Hi) as [[k v] E].
  cbn [omap list_omap]. rewrite E. rewrite !fmap_cons. rewrite IH. f_equal.
  rewrite list_lookup_total_alt, list_lookup_fmap, E. reflexivity.
Qed.

Lemma sorted_items_sorted {V} (d : list (Q * V)) : StronglySorted Qle (sorted_items d).*1.
Proof. rewrite sorted_items_keys. apply take_indices_sorted. Qed.

Lemma dict_get_depth_In {V} (d : list (Q * V)) k v :
  distinct d.*1 -> In (k, v) d -> dict_get_depth d k = Some v.
Proof.
  induction d as [|[k0 v0] d IH]; intros Hd Hin; [destruct Hin|].
  simpl in Hd. destruct Hd as [Hk0 Hd]. simpl.
  destruct Hin as [Heq|Hin].
  - injection Heq as -> ->. rewrite (proj2 (Qeq_bool_iff k k)) by reflexivity.
    reflexivity.
  - destruct (Qeq_bool k0 k) eqn:E; [|apply IH; assumption].
    apply Qeq_bool_iff in E. exfalso. rewrite Forall_forall in Hk0.
    apply (Hk0 k); [|exact E].
    apply list_elem_of_fmap. exists (k, v). split; [reflexivity|].
    apply list_elem_of_In. exact Hin.
Qed.

Lemma depth_entries_fresh {V} (l : list (Q * V)) (acc : list (Q * Q)) :
  distinct (acc.*1 ++ l.*1) ->
  foldl (fun entries '(depth, _) => dict_set_depth entries depth depth) acc l
  = acc ++ ((fun p : Q * V => (p.1, p.1)) <$> l).
Proof.
  revert acc. induction l as [|[k v] l IH]; intros acc Hd; simpl.
  - rewrite app_nil_r. reflexivity.
  - destruct (distinct_app_inv _ _ _ Hd) as [_ Hfresh].
    rewrite dict_set_depth_fresh by exact Hfresh. rewrite IH.
    + rewrite <- app_assoc. reflexivity.
    + rewrite fmap_app, <- app_assoc. exact Hd.
Qed.

(** Saving the depth editor without touching any field, on a registry
    keyed by pairwise distinct depths: no KeyError, every sensor keeps
    its depth and its frame, and the registry is now in ascending order of
    depth, so that its first sensor is the shallowest one. *)
Theorem save_depths_unedited regs :
  distinct regs.*1 ->
  save_depths (depth_entries regs) regs = Some (sorted_items regs) /\
  Permutation (sorted_items regs) regs /\
  StronglySorted Qle (sorted_items regs).*1.
Proof.
  intros Hd. split; [|split; [apply sorted_items_perm|apply sorted_items_sorted]].
  pose proof (sorted_items_perm regs) as Hp.
  assert (Hds : distinct (sorted_items regs).*1).
  { apply (distinct_perm regs.*1); [|exact Hd]. symmetry. apply fmap_Permutation, Hp. }
  unfold depth_entries. rewrite (depth_entries_fresh (sorted_items regs) []) by exact Hds.
  simpl. unfold save_depths.
  rewrite (save_depths_loop_fresh _ regs [] (sorted_items regs).*2).
  - simpl. rewrite <- list_fmap_compose.
    replace (snd ∘ (fun p : Q * DataFrame => (p.1, p.1)) <$> sorted_items regs)
      with ((sorted_items regs).*1) by (apply list_fmap_ext; intros ? [? ?] _; reflexivity).
    rewrite zip_fst_snd. reflexivity.
  - apply Forall2_fmap_l, Forall2_fmap_r. apply Forall_Forall2_diag.
    apply Forall_forall. intros [k v] Hin. simpl.
    apply dict_get_depth_In; [exact Hd|].
    apply list_elem_of_In. rewrite <- Hp. exact Hin.
  - simpl. rewrite <- list_fmap_compose.
    replace (snd ∘ (fun p : Q * DataFrame => (p.1, p.1)) <$> sorted_items regs)
      with ((sorted_items regs).*1) by (apply list_fmap_ext; intros ? [? ?] _; reflexivity).
    exact Hds.
Qed.

(** ** The header line and the rows skipped *)

Lemma first_comma_line_Some lines i :
  first_comma_line lines = Some i ->
  (exists line, lines !! i = Some line /\ has_comma line = true) /\
  (forall j l, j < i -> lines !! j = Some l -> has_comma l = false).
Proof.
  revert i. induction lines as [|line lines IH]; intros i; simpl; [discriminate|].
  destruct (has_comma line) eqn:E.
  - intros H. injection H as <-. split; [eauto|]. intros j l Hj. lia.
  - destruct (first_comma_line lines) as [k|]; [|discriminate].
    intros H. injection H as <-. destruct (IH k eq_refl) as [I1 I2]. split; [exact I1|].
    intros [|j] l Hj Hl; simpl in Hl; [congruence|]. apply (I2 j l); [lia|exact Hl].
Qed.

Lemma first_comma_line_None lines :
  first_comma_line lines = None <-> forall line, In line lines -> has_comma line = false.
Proof.
  induction lines as [|line lines IH]; simpl.
  - split; [intros _ l []|reflexivity].
  - destruct (has_comma line) eqn:E.
    + split; [discriminate|]. intros H. specialize (H line (or_introl eq_refl)). congruence.
    + destruct (first_comma_line lines) as [k|]; simpl.
      * split; [discriminate|]. intros H. exfalso.
        assert (Hn : Some k = None); [|discriminate].
        apply (proj2 IH). intros l Hl. apply H. right. exact Hl.
      * split; [|reflexivity]. intros _ l [<-|Hl]; [exact E|].
        apply (proj1 IH eq_refl). exact Hl.
Qed.

Lemma first_comma_line_take n lines i :
  first_comma_line (take n lines) = Some i -> first_comma_line lines = Some i.
Proof.
  revert n i. induction lines as [|line lines IH]; intros [|n] i; simpl; try discriminate.
  destruct (has_comma line); [auto|].
  destruct (first_comma_line (take n lines)) as [k|] eqn:E; [|discriminate].
  rewrite (IH n k E). auto.
Qed.

(** Header detection in "auto" mode.  The header line [load_files] uses is
    the first line with a comma, and line 0 when no line has one, where
    [preview_files] marks no header at all; a header the preview marks is
    the one the load uses.  With the skip-units option off the rows
    skipped are exactly those before the header line; with it on the only
    row skipped is the one after the header line, and no row before the
    header line is skipped. *)
Theorem header_line_and_skipped_rows lines skip_lines :
  let h := load_header_line "auto" lines skip_lines in
  (forall i, first_comma_line lines = Some i ->
     h = Z.of_nat i /\
     (exists line, lines !! i = Some line /\ has_comma line = true) /\
     (forall j l, j < i -> lines !! j = Some l -> has_comma l = false)) /\
  ((forall line, In line lines -> has_comma line = false) ->
     h = 0%Z /\ preview_header_line lines = (-1)%Z) /\
  (preview_header_line lines <> (-1)%Z -> preview_header_line lines = h) /\
  (forall r, skips (load_skiprows h false) r = true <-> (r < h)%Z) /\
  (forall r, skips (load_skiprows h true) r = true <-> r = (h + 1)%Z) /\
  (forall r, (r <= h)%Z -> skips (load_skiprows h true) r = false).
Proof.
  cbv zeta. unfold load_header_line. simpl. split_and!.
  - intros i E. rewrite E. split; [reflexivity|]. apply first_comma_line_Some. exact E.
  - intros H. pose proof (proj2 (first_comma_line_None lines) H) as E. rewrite E.
    split; [reflexivity|]. unfold preview_header_line.
    destruct (first_comma_line (take 20 lines)) as [k|] eqn:E'; [|reflexivity].
    apply first_comma_line_take in E'. congruence.
  - unfold preview_header_line.
    destruct (first_comma_line (take 20 lines)) as [k|] eqn:E'; [|congruence].
    intros _. rewrite (first_comma_line_take _ _ _ E'). reflexivity.
  - intros r. simpl. apply Z.ltb_lt.
  - intros r. simpl. rewrite bool_decide_eq_true, list_elem_of_singleton. reflexivity.
  - intros r Hr. simpl. apply bool_decide_eq_false. rewrite list_elem_of_singleton. lia.
Qed.

(** ** The list of selected variables *)

Lemma add_loop_spec (sel items : list string) :
  NoDup items ->
  let r := foldl (fun items var => if bool_decide (var ∈ items) then items
                                   else items ++ [var]) items sel in
  NoDup r /\ (exists extra, r = items ++ extra) /\
  (forall var, In var r <-> In var items \/ In var sel).
Proof.
  revert items. induction sel as [|v sel IH]; intros items Hnd; simpl.
  - split_and!; [exact Hnd|exists []; rewrite app_nil_r; reflexivity|].
    intros var. tauto.
  - case_bool_decide as Hin.
    + destruct (IH items Hnd) as (I1 & I2 & I3). split_and!; [exact I1|exact I2|].
      intros var. rewrite I3. split; [tauto|].
      intros [H|[<-|H]]; auto. left. apply list_elem_of_In. exact Hin.
    + assert (Hnd' : NoDup (items ++ [v])).
      { apply NoDup_app. split_and!; [exact Hnd| |apply NoDup_singleton].
        intros x Hx Hx'. apply list_elem_of_singleton in Hx'. subst. contradiction. }
      destruct (IH (items ++ [v]) Hnd') as (I1 & [extra I2] & I3).
      split_and!; [exact I1|exists (v :: extra); rewrite I2, <- app_assoc; reflexivity|].
      intros var. rewrite I3, in_app_iff. simpl. tauto.
Qed.

Lemma add_loop_noop (sel items : list string) :
  (forall var, In var sel -> In var items) ->
  foldl (fun items var => if bool_decide (var ∈ items) then items
                          else items ++ [var]) items sel = items.
Proof.
  induction sel as [|v sel IH]; intros H; simpl; [reflexivity|].
  rewrite bool_decide_eq_true_2
    by (apply list_elem_of_In, H; left; reflexivity).
  apply IH. intros var Hv. apply H. right. exact Hv.
Qed.

(** [add_variables] keeps the selected list free of duplicates, keeps what
    was selected before at the front and in order, adds exactly the
    variables picked in the available list, and pressed a second time with
    the same picks changes nothing. *)
Theorem add_variables_no_duplicates available_vars curselection selected_vars :
  NoDup selected_vars ->
  let r := add_variables available_vars curselection selected_vars in
  NoDup r /\
  (exists extra, r = selected_vars ++ extra) /\
  (forall var, In var r <->
     In var selected_vars \/ In var (listbox_selection available_vars curselection)) /\
  add_variables available_vars curselection r = r.
Proof.
  intros Hnd. cbv zeta. unfold add_variables.
  destruct (add_loop_spec (listbox_selection available_vars curselection)
              selected_vars Hnd) as (I1 & I2 & I3).
  split_and!; [exact I1|exact I2|exact I3|].
  apply add_loop_noop. intros var Hv. apply I3. right. exact Hv.
Qed.

Lemma filter_out_absent var (items : list string) :
  ~ In var items ->
  List.filter (fun x => negb (String.eqb x var)) items = items.
Proof.
  induction items as [|x items IH]; intros H; simpl; [reflexivity|].
  destruct (String.eqb x var) eqn:E.
  - apply String.eqb_eq in E. exfalso. apply H. left. exact E.
  - simpl. f_equal. apply IH. intros Hin. apply H. right. exact Hin.
Qed.

Lemma delete_first_unique var (items : list string) :
  NoDup items -> In var items ->
  delete_first var items = Some (List.filter (fun x => negb (String.eqb x var)) items).
Proof.
  induction items as [|x items IH]; intros Hnd Hin; [destruct Hin|].
  apply NoDup_cons in Hnd as [Hx Hnd]. simpl.
  destruct (String.eqb x var) eqn:E.
  - apply String.eqb_eq in E. subst x. simpl. rewrite filter_out_absent; [reflexivity|].
    intros H. apply Hx. apply list_elem_of_In. exact H.
  - destruct Hin as [->|Hin]; [rewrite String.eqb_refl in E; discriminate|].
    rewrite (IH Hnd Hin). reflexivity.
Qed.

Lemma NoDup_filter_bool (f : string -> bool) (items : list string) :
  NoDup items -> NoDup (List.filter f items).
Proof.
  induction 1 as [|x items Hx Hnd IH]; simpl; [constructor|].
  destruct (f x); [|exact IH]. constructor; [|exact IH].
  intros H. apply Hx. apply list_elem_of_In in H. apply filter_In in H as [H _].
  apply list_elem_of_In. exact H.
Qed.

Lemma remove_loop_spec (sel items : list string) :
  NoDup items -> NoDup sel -> (forall var, In var sel -> In var items) ->
  foldl (fun items var => items ≫= delete_first var) (Some items) sel
  = Some (List.filter (fun x => negb (bool_decide (x ∈ sel))) items).
Proof.
  revert items. induction sel as [|v sel IH]; intros items Hnd Hsel Hsub.
  - simpl. f_equal. clear.
    induction items as [|x items IHi]; simpl in *; [reflexivity|].
    f_equal. exact IHi.
  - apply NoDup_cons in Hsel as [Hv Hsel]. simpl.
    rewrite (delete_first_unique v items Hnd (Hsub v (or_introl eq_refl))).
    rewrite IH.
    + f_equal. clear. induction items as [|x items IHi]; [reflexivity|].
      cbn [List.filter]. destruct (String.eqb x v) eqn:E.
      * apply String.eqb_eq in E. subst x.
        rewrite (bool_decide_eq_true_2 (v ∈ v :: sel)) by (left).
        cbn [negb]. exact IHi.
      * cbn [negb List.filter]. rewrite IHi.
        assert (Hiff : bool_decide (x ∈ sel) = bool_decide (x ∈ v :: sel)).
        { apply bool_decide_ext. rewrite elem_of_cons. split; [auto|].
          intros [->|H]; [rewrite String.eqb_refl in E; discriminate|exact H]. }
        rewrite Hiff. reflexivity.
    + apply NoDup_filter_bool. exact Hnd.
    + exact Hsel.
    + intros var Hvar. apply filter_In. split; [apply Hsub; right; exact Hvar|].
      apply negb_true_iff. destruct (String.eqb var v) eqn:E; [|reflexivity].
      apply String.eqb_eq in E. subst var. exfalso. apply Hv.
      apply list_elem_of_In. exact Hvar.
Qed.

Lemma listbox_selection_NoDup (items : list string) (curselection : list nat) :
  NoDup items -> NoDup curselection -> NoDup (listbox_selection items curselection).
Proof.
  intros Hi Hc. unfold listbox_selection.
  induction Hc as [|i cs Hn Hc IH]; simpl; [constructor|].
  destruct (items !! i) as [x|] eqn:E; [|exact IH].
  constructor; [|exact IH]. intros Hx.
  apply list_elem_of_omap in Hx as (j & Hj & Hjx).
  assert (i = j) by (apply (NoDup_lookup items i j x Hi E Hjx)). subst j. contradiction.
Qed.

(** [remove_variables] on a selected list without duplicates (which
    [add_variables] maintains), with the indices of the current selection
    (no index twice): [index] never raises, and what is left is the
    selected list without the picked variables, in its order. *)
Theorem remove_variables_removes_picked curselection selected_vars :
  NoDup selected_vars -> NoDup curselection ->
  remove_variables curselection selected_vars
  = Some (List.filter
            (fun x => negb (bool_decide (x ∈ listbox_selection selected_vars curselection)))
            selected_vars).
Proof.
  intros Hs Hc. unfold remove_variables. apply remove_loop_spec.
  - exact Hs.
  - apply listbox_selection_NoDup; assumption.
  - intros var Hv. apply list_elem_of_In, list_elem_of_omap in Hv as (j & _ & Hj).
    eapply lookup_In. exact Hj.
Qed.

(** ** The checkboxes after processing *)

Lemma dict_set_keys {V} (d : list (string * V)) key (value : V) :
  (dict_set d key value).*1
  = if bool_decide (key ∈ d.*1) then d.*1 else d.*1 ++ [key].
Proof.
  induction d as [|[k v] d IH]; [reflexivity|].
  cbn [dict_set]. rewrite !fmap_cons. cbn [fst].
  destruct (String.eqb k key) eqn:E.
  - apply String.eqb_eq in E. subst k.
    rewrite bool_decide_eq_true_2 by (left). reflexivity.
  - rewrite fmap_cons, IH. cbn [fst].
    assert (Hk : k <> key) by (intros ->; rewrite String.eqb_refl in E; discriminate).
    destruct (bool_decide (key ∈ d.*1)) eqn:Eb.
    + apply bool_decide_eq_true_1 in Eb.
      rewrite bool_decide_eq_true_2 by (right; exact Eb). reflexivity.
    + apply bool_decide_eq_false_1 in Eb. rewrite bool_decide_eq_false_2; [reflexivity|].
      intros H. apply elem_of_cons in H as [H|H]; [congruence|contradiction].
Qed.

Lemma dict_set_all_true (d : list (string * bool)) key :
  Forall (fun p : string * bool => p.2 = true) d ->
  Forall (fun p : string * bool => p.2 = true) (dict_set d key true).
Proof.
  induction d as [|[k v] d IH]; intros H; simpl; [repeat constructor|].
  inversion H as [|? ? Hv H']; subst.
  destruct (String.eqb k key); constructor; auto.
Qed.

Lemma checkboxes_keys (columns : list string) (d : list (string * bool)) :
  Forall (fun p : string * bool => p.2 = true) d ->
  Forall (fun p : string * bool => p.2 = true)
         (foldl (fun boxes var_name => dict_set boxes var_name true) d columns) /\
  (foldl (fun boxes var_name => dict_set boxes var_name true) d columns).*1
  = foldl (fun items var => if bool_decide (var ∈ items) then items else items ++ [var])
          d.*1 columns.
Proof.
  revert d. induction columns as [|c columns IH]; intros d Hd; simpl; [auto|].
  destruct (IH (dict_set d c true) (dict_set_all_true d c Hd)) as [I1 I2].
  split; [exact I1|]. rewrite I2, dict_set_keys. reflexivity.
Qed.

Lemma ticked_all (d : list (string * bool)) :
  Forall (fun p : string * bool => p.2 = true) d ->
  (List.filter (fun '(_, checked) => checked) d).*1 = d.*1.
Proof.
  induction 1 as [|[k v] d Hv _ IH]; [reflexivity|].
  simpl in Hv. subst v. cbn [List.filter]. rewrite !fmap_cons. f_equal. exact IH.
Qed.

Lemma add_loop_fresh (sel items : list string) :
  NoDup (items ++ sel) ->
  foldl (fun items var => if bool_decide (var ∈ items) then items
                          else items ++ [var]) items sel = items ++ sel.
Proof.
  revert items. induction sel as [|v sel IH]; intros items H; simpl.
  - rewrite app_nil_r. reflexivity.
  - apply NoDup_app in H as H'. destruct H' as (_ & Hdis & _).
    rewrite bool_decide_eq_false_2 by (intros Hin; apply (Hdis v Hin); left).
    rewrite IH; rewrite <- app_assoc; [reflexivity|exact H].
Qed.

(** Right after [update_interpolation_variables] every column name has a
    ticked checkbox: a run would interpolate each of them once; when the
    column names differ pairwise, in the order of the columns. *)
Theorem all_columns_ticked columns self :
  let r := variables_to_interpolate (update_interpolation_variables columns self) in
  NoDup r /\
  (forall var, In var r <-> In var columns) /\
  (NoDup columns -> r = columns).
Proof.
  cbv zeta. unfold variables_to_interpolate, update_interpolation_variables.
  cbn [interp_var_checkboxes set_interp_var_checkboxes].
  destruct (checkboxes_keys columns [] ltac:(constructor)) as [H1 H2].
  rewrite (ticked_all _ H1), H2. simpl.
  destruct (add_loop_spec columns [] (NoDup_nil_2 (A:=string))) as (I1 & _ & I3).
  split_and!; [exact I1| |].
  - intros var. rewrite (I3 var). simpl. tauto.
  - intros Hnd. apply (add_loop_fresh columns []). exact Hnd.
Qed.

(** ** Plotting after a run *)

(** After a run that raised nothing (a sensor, a ticked variable) and
    stored at least one grid, the first stored variable is the one
    selected for plotting, the drop-down lists the stored variables, the
    title is set from it, and, its name not being empty, [generate_plot]
    passes its two checks. *)
Theorem plot_after_completed_run self v g rest :
  depth_arrays self <> [] ->
  variables_to_interpolate self <> [] ->
  (interpolation_body self).2 = Ok tt ->
  interpolated_arrays (perform_interpolation self) = (v, g) :: rest ->
  v <> ""%string ->
  viz_variable (perform_interpolation self) = v /\
  viz_var_combo (perform_interpolation self) = v :: rest.*1 /\
  plot_title (perform_interpolation self) = (v ++ " Contour Plot")%string /\
  generate_plot_refusal (perform_interpolation self) = None.
Proof.
  intros Hd Hv. unfold perform_interpolation, interpolation_body.
  destruct (depth_arrays self) as [|[depth df] regs] eqn:Ed; [congruence|].
  destruct (variables_to_interpolate self) as [|v0 vs] eqn:Ev; [congruence|].
  change (depth_arrays (set_interpolated_arrays [] self)) with (depth_arrays self).
  rewrite Ed. cbn [fmap list_fmap].
  destruct (common_time_index _ _) as [time_index warnings].
  destruct (arange _ _ _) as [dp|e]; [|discriminate].
  destruct (interpolate_variables _ _ _ _ _) as [self' [u|e]]; [|discriminate].
  cbn [fst snd]. intros _ Hg Hne.
  change (interpolated_arrays (update_visualization_variables self') = (v, g) :: rest)
    in Hg.
  rewrite update_visualization_variables_grids in Hg.
  unfold generate_plot_refusal, update_visualization_variables.
  cbn [interpolated_arrays set_status]. rewrite Hg. cbn [fmap list_fmap fst].
  cbn [interpolated_arrays viz_variable viz_var_combo plot_title set_viz set_status].
  rewrite Hg. split_and!; try reflexivity.
  destruct (String.eqb v "") eqn:E; [apply String.eqb_eq in E; contradiction|].
  rewrite bool_decide_eq_true_2 by (rewrite fmap_cons; left). reflexivity.
Qed.

(** ** The further properties at concrete inputs *)

Lemma var_data_keys_witness :
  exists vd,
    extract_var_data "temp" [0%Z; 1%Z] (depth_arrays stale_depths_input) [] = Ok vd /\
    distinct vd.*1.
Proof.
  eexists. split; [reflexivity|].
  exact (proj1 (var_data_keys "temp" [0%Z; 1%Z] (depth_arrays stale_depths_input) _
                  eq_refl)).
Defined.

Lemma align_one_value_per_timestamp_witness :
  exists values,
    align temp_frame [1%Z; 2%Z] "temp" = Ok values /\ length values = 2.
Proof.
  destruct (align_one_value_per_timestamp temp_frame [1%Z; 2%Z] "temp"
              ltac:(apply (bool_decide_unpack _); reflexivity) eq_refl)
    as (values & E & L & _).
  exists values. split; [exact E|exact L].
Defined.


Lemma stored_variables_are_present_witness :
  In "temp"%string (variables_to_interpolate stale_depths_input).
Proof.
  apply (stored_variables_are_present stale_depths_input "temp").
  - discriminate.
  - discriminate.
  - vm_compute. left. reflexivity.
Defined.

Lemma stored_grid_shape_witness :
  exists g,
    In ("temp"%string, g) (interpolated_arrays (perform_interpolation stale_depths_input)) /\
    length (data g) = length (depths g).
Proof.
  eexists. split; [vm_compute; left; reflexivity|].
  apply (stored_grid_shape stale_depths_input "temp").
  - discriminate.
  - discriminate.
  - vm_compute. left. reflexivity.
Defined.


Lemma fill_column_frame_witness :
  length (fill_column one_value_grid 0) = 3 /\
  rows_of_length 1 (fill_column one_value_grid 0).
Proof.
  destruct (fill_column_frame 1 one_value_grid 0) as (H1 & H2 & _).
  - repeat constructor.
  - lia.
  - split; [exact H1|exact H2].
Defined.

Lemma save_depths_keeps_sensors_witness :
  exists new,
    save_depths [(1%Q, 4%Q); (2%Q, 3%Q)] (depth_arrays stale_depths_input) = Some new /\
    distinct new.*1.
Proof.
  destruct (save_depths_keeps_sensors [(1%Q, 4%Q); (2%Q, 3%Q)]
              (depth_arrays stale_depths_input)
              (depth_arrays stale_depths_input).*2) as (new & E & D & _).
  - repeat constructor.
  - exists new. split; [exact E|exact D].
Defined.

Lemma save_depths_unedited_witness :
  save_depths (depth_entries (depth_arrays stale_depths_input))
              (depth_arrays stale_depths_input)
  = Some (sorted_items (depth_arrays stale_depths_input)).
Proof.
  apply (save_depths_unedited (depth_arrays stale_depths_input)).
  simpl. repeat split; repeat constructor. discriminate.
Defined.

Lemma header_line_and_skipped_rows_witness :
  load_header_line "auto" logger_lines 8 = 1%Z /\
  skips (load_skiprows (load_header_line "auto" logger_lines 8) true) 2 = true.
Proof.
  destruct (header_line_and_skipped_rows logger_lines 8) as (H1 & _ & _ & _ & H5 & _).
  split.
  - apply (H1 1). reflexivity.
  - apply H5. reflexivity.
Defined.

Lemma add_variables_no_duplicates_witness :
  NoDup (add_variables ["temp"; "sal"; "do"]%string [0; 2] ["temp"%string]).
Proof.
  apply (add_variables_no_duplicates ["temp"; "sal"; "do"]%string [0; 2] ["temp"%string]).
  apply (bool_decide_unpack _). reflexivity.
Defined.

Lemma remove_variables_removes_picked_witness :
  remove_variables [0] ["temp"; "sal"]%string = Some ["sal"%string].
Proof.
  rewrite (remove_variables_removes_picked [0] ["temp"; "sal"]%string).
  - reflexivity.
  - apply (bool_decide_unpack _). reflexivity.
  - apply (bool_decide_unpack _). reflexivity.
Defined.

Lemma all_columns_ticked_witness :
  variables_to_interpolate
    (update_interpolation_variables ["temp"; "sal"]%string stale_depths_input)
  = ["temp"; "sal"]%string.
Proof.
  apply (all_columns_ticked ["temp"; "sal"]%string stale_depths_input).
  apply (bool_decide_unpack _). reflexivity.
Defined.

Lemma plot_after_completed_run_witness :
  viz_variable (perform_interpolation stale_depths_input) = "temp"%string /\
  generate_plot_refusal (perform_interpolation stale_depths_input) = None.
Proof.
  edestruct (plot_after_completed_run stale_depths_input "temp"%string) as (H1 & _ & _ & H4).
  - discriminate.
  - discriminate.
  - reflexivity.
  - vm_compute. reflexivity.
  - discriminate.
  - split; [exact H1|exact H4].
Defined.
